(** * swfparse: a shallow embedding of [swfparse.py] and its properties

    The parser threads an integer bit position [pos] through every call
    and returns [(value, new_pos)] pairs; failures are Python exceptions.
    Here positions and integers are [Z], the buffer is a [list byte], a
    call that can raise returns an [outcome], and Python's dictionaries are
    finite maps. *)

From Stdlib Require Import ZArith List String Ascii QArith Lia.
From Stdlib.Strings Require Import Byte.
From stdpp Require Import base gmap list.

Open Scope Z_scope.

(** ** Exceptions and the error monad *)

(** The [ValueError]s of the module, told apart by what raised them. *)
Inductive value_error :=
  | ExpectedPositive (pos : Z)          (* byte_align *)
  | NotByteAligned (pos : Z)            (* _check_byte_alignment *)
  | NegativeShiftCount                  (* [a << n] with [n < 0] *)
  | BadSignatureEnding (actual : string). (* Header.__init__ *)

Inductive exn :=
  | ValueError (why : value_error)
  | IndexError                          (* [data[i]] out of range *)
  | KeyError (key : Z)                  (* [d[k]] with [k] not in [d] *)
  | NameError (name : string).          (* use of an unbound name *)

Inductive outcome (A : Type) :=
  | OK (a : A)
  | Raise (e : exn).
Arguments OK {A} a.
Arguments Raise {A} e.

Definition bind {A B} (m : outcome A) (k : A -> outcome B) : outcome B :=
  match m with
  | OK a => k a
  | Raise e => Raise e
  end.

Notation "'do' p <- m ; k" := (bind m (fun p => k))
  (at level 10, p pattern, m at level 100, k at level 200).

(** ** Python's sequence and integer operations *)

Definition len (data : list byte) : Z := Z.of_nat (List.length data).

Definition byte_val (b : byte) : Z := Z.of_N (Byte.to_N b).

(** [data[i]]: a negative index counts from the end. *)
Definition getitem (data : list byte) (i : Z) : outcome Z :=
  let j := if i <? 0 then i + len data else i in
  if (j <? 0) || (len data <=? j) then Raise IndexError
  else match data !! Z.to_nat j with
       | Some b => OK (byte_val b)
       | None => Raise IndexError
       end.

(** A slice bound, adjusted as [data[start:stop]] does: a negative bound
    counts from the end, and the outcome is clipped to [0 .. len]. *)
Definition adjust_index (n i : Z) : Z :=
  if i <? 0 then Z.max 0 (i + n) else Z.min i n.

(** [data[start:stop]]: never raises. *)
Definition getslice (data : list byte) (start stop : Z) : list byte :=
  let s := adjust_index (len data) start in
  let e := adjust_index (len data) stop in
  take (Z.to_nat (e - s)) (drop (Z.to_nat s) data).

(** [a << n]. *)
Definition lshift (a n : Z) : outcome Z :=
  if n <? 0 then Raise (ValueError NegativeShiftCount)
  else OK (Z.shiftl a n).

(** [d[k]] on a dictionary. *)
Definition dict_getitem {V} (d : gmap Z V) (k : Z) : outcome V :=
  match d !! k with
  | Some v => OK v
  | None => Raise (KeyError k)
  end.

(** [chr(n)] for the value of one byte. *)
Definition chr (n : Z) : ascii := ascii_of_N (Z.to_N n).

(** ** Bit and byte cursor *)

Definition byte_align (pos : Z) : outcome Z :=
  if pos <? 0 then Raise (ValueError (ExpectedPositive pos))
  else OK (((pos + 7) / 8) * 8).

(** [divmod(pos, 8)] is floor division, as [Z.div] and [Z.modulo] are;
    [7 - bit_index] is therefore never negative. *)
Definition get_bit (data : list byte) (pos : Z) : outcome (Z * Z) :=
  let byte_index := pos / 8 in
  let bit_index := pos mod 8 in
  do byte <- getitem data byte_index;
  OK (Z.land (Z.shiftr byte (7 - bit_index)) 1, pos + 1).

Definition _check_byte_alignment (pos : Z) : outcome unit :=
  if negb (pos mod 8 =? 0) then Raise (ValueError (NotByteAligned pos))
  else OK tt.

Definition get_byte (data : list byte) (pos : Z) : outcome (Z * Z) :=
  do _ <- _check_byte_alignment pos;
  do byte <- getitem data (pos / 8);
  OK (byte, pos + 8).

Definition parse_bytes (data : list byte) (pos num_bytes : Z)
  : outcome (list byte * Z) :=
  do _ <- _check_byte_alignment pos;
  OK (getslice data (pos / 8) ((pos / 8) + num_bytes), pos + 8 * num_bytes).

Definition as_signed (num num_bits : Z) : outcome Z :=
  do sign_bit <- lshift 1 (num_bits - 1);
  if negb (Z.land num sign_bit =? 0) then
    do modulus <- lshift 1 num_bits;
    OK (num - modulus)
  else OK num.

(** The body of [for _ in range(0, num_bits)], run [n] times. *)
Fixpoint parse_ub_loop (data : list byte) (n : nat) (result pos : Z)
  : outcome (Z * Z) :=
  match n with
  | O => OK (result, pos)
  | S n' =>
      do (bit, pos) <- get_bit data pos;
      parse_ub_loop data n' (2 * result + bit) pos
  end.

Definition parse_ub (data : list byte) (pos num_bits : Z) : outcome (Z * Z) :=
  parse_ub_loop data (Z.to_nat num_bits) 0 pos.

Definition parse_sb (data : list byte) (pos num_bits : Z) : outcome (Z * Z) :=
  do (ub, pos) <- parse_ub data pos num_bits;
  do v <- as_signed ub num_bits;
  OK (v, pos).

(** The body of [for byte_index in range(0, num_bytes)], with [n]
    iterations left; the shift count [8 * byte_index] is never negative. *)
Fixpoint parse_uint_loop (data : list byte) (n : nat) (byte_index result pos : Z)
  : outcome (Z * Z) :=
  match n with
  | O => OK (result, pos)
  | S n' =>
      do (byte, pos) <- get_byte data pos;
      parse_uint_loop data n' (byte_index + 1)
        (Z.lor result (Z.shiftl byte (8 * byte_index))) pos
  end.

Definition parse_uint (data : list byte) (pos num_bytes : Z) : outcome (Z * Z) :=
  do pos <- byte_align pos;
  parse_uint_loop data (Z.to_nat num_bytes) 0 0 pos.

Definition parse_ui8 data pos := parse_uint data pos 1.
Definition parse_ui16 data pos := parse_uint data pos 2.
Definition parse_ui32 data pos := parse_uint data pos 4.
Definition parse_ui64 data pos := parse_uint data pos 8.

Definition parse_si8 data pos : outcome (Z * Z) :=
  do (ui8, pos) <- parse_ui8 data pos;
  do v <- as_signed ui8 8;
  OK (v, pos).

Definition parse_si16 data pos : outcome (Z * Z) :=
  do (ui16, pos) <- parse_ui16 data pos;
  do v <- as_signed ui16 16;
  OK (v, pos).

Definition parse_si32 data pos : outcome (Z * Z) :=
  do (ui32, pos) <- parse_ui32 data pos;
  do v <- as_signed ui32 32;
  OK (v, pos).

(** [si16 / (2 ** 8)]: the quotient of a 16-bit integer by a power of two
    is exact, so the float is the rational [si16 / 256]. *)
Definition parse_fixed8 data pos : outcome (Q * Z) :=
  do (si16, pos) <- parse_si16 data pos;
  OK (Qmake si16 256, pos).

Definition parse_fixed16 data pos : outcome (Q * Z) :=
  do (si32, pos) <- parse_si32 data pos;
  OK (Qmake si32 65536, pos).

(** ** Rect *)

Module Rect.

Record t := { x_min : Z; x_max : Z; y_min : Z; y_max : Z }.

Definition parse (data : list byte) (pos : Z) : outcome (t * Z) :=
  do (num_bits, pos) <- parse_ub data pos 5;
  do (x_min, pos) <- parse_sb data pos num_bits;
  do (x_max, pos) <- parse_sb data pos num_bits;
  do (y_min, pos) <- parse_sb data pos num_bits;
  do (y_max, pos) <- parse_sb data pos num_bits;
  OK ({| x_min := x_min; x_max := x_max; y_min := y_min; y_max := y_max |}, pos).

End Rect.

(** ** Header *)

Module Header.

(** The attributes of a header object; [compression] is Python's [None],
    ['zlib'] or ['lzma'], and the three frame attributes exist only on an
    uncompressed header. *)
Record t := {
  signature : string;
  compression : option string;
  version : Z;
  file_length : Z;
  frame_size : option Rect.t;
  frame_rate : option Q;
  frame_count : option Z
}.

(** [signature[1:]] *)
Definition ending (signature : string) : string :=
  match signature with
  | EmptyString => EmptyString
  | String _ rest => rest
  end.

(** [signature[0]] *)
Definition first (signature : string) : outcome ascii :=
  match signature with
  | EmptyString => Raise IndexError
  | String c _ => OK c
  end.

(** The constructor sets [self.signature] to its argument and
    [self.compression] to the value returned here.  Its last branch
    formats the message with [header.signature[0]], and no name [header]
    is bound in the constructor or in the module. *)
Definition __init__ (signature : string) : outcome (option string) :=
  let actual_ending := ending signature in
  let expected_ending := "WS"%string in
  if negb (String.eqb actual_ending expected_ending) then
    Raise (ValueError (BadSignatureEnding actual_ending))
  else
    do c <- first signature;
    if Ascii.eqb c "F" then OK None
    else if Ascii.eqb c "C" then OK (Some "zlib"%string)
    else if Ascii.eqb c "Z" then OK (Some "lzma"%string)
    else Raise (NameError "header").

Definition parse (data : list byte) (pos : Z) : outcome (t * Z) :=
  do (sig_byte_1, pos) <- parse_ui8 data pos;
  do (sig_byte_2, pos) <- parse_ui8 data pos;
  do (sig_byte_3, pos) <- parse_ui8 data pos;
  let signature :=
    String (chr sig_byte_1) (String (chr sig_byte_2)
      (String (chr sig_byte_3) EmptyString)) in
  do compression <- __init__ signature;
  do (version, pos) <- parse_ui8 data pos;
  do (file_length, pos) <- parse_ui32 data pos;
  match compression with
  | None =>
      do (frame_size, pos) <- Rect.parse data pos;
      do (frame_rate, pos) <- parse_fixed8 data pos;
      do (frame_count, pos) <- parse_ui16 data pos;
      OK ({| signature := signature; compression := compression;
             version := version; file_length := file_length;
             frame_size := Some frame_size; frame_rate := Some frame_rate;
             frame_count := Some frame_count |}, pos)
  | Some _ =>
      OK ({| signature := signature; compression := compression;
             version := version; file_length := file_length;
             frame_size := None; frame_rate := None;
             frame_count := None |}, pos)
  end.

End Header.

(** ** DefineSound: the one tag with a body parser of its own *)

(** A table value that is a Python [int] or a [float]. *)
Inductive number :=
  | Int (z : Z)
  | Float (q : Q).

Module DefineSound.

Definition _formats : gmap Z string :=
  list_to_map
    [ (0, "uncompressed native-endian"); (1, "ADPCM"); (2, "MP3");
      (3, "uncompressed little-endian"); (4, "Nellymoser 16 kHz");
      (5, "Nellymoser 8 kHz"); (6, "Nellymoser"); (11, "Speex") ]%string.

Definition _sampling_rates : gmap Z number :=
  list_to_map
    [ (0, Float (Qmake 11025 2)); (1, Int 11025); (2, Int 22050);
      (3, Int 44100) ].

Definition _bits_per_sample : gmap Z Z :=
  list_to_map [ (0, 8); (1, 16) ].

Definition _channels : gmap Z string :=
  list_to_map [ (0, "mono"); (1, "stereo") ]%string.

(** The attributes [_parse] sets on the tag. *)
Record t := {
  id : Z;
  format : string;
  sampling_rate : number;
  bits_per_sample : Z;
  channels : string;
  sample_count : Z;
  data : list byte
}.

(** [length] is [self.length], the length declared in the tag's framing. *)
Definition _parse (length : Z) (data : list byte) (pos : Z) : outcome t :=
  let original_pos := pos in
  do (id, pos) <- parse_ui16 data pos;
  do (format_num, pos) <- parse_ub data pos 4;
  do format <- dict_getitem _formats format_num;
  do (sampling_rate_num, pos) <- parse_ub data pos 2;
  do sampling_rate <- dict_getitem _sampling_rates sampling_rate_num;
  do (bits_per_sample_num, pos) <- parse_ub data pos 1;
  do bits_per_sample <- dict_getitem _bits_per_sample bits_per_sample_num;
  do (channels_num, pos) <- parse_ub data pos 1;
  do channels <- dict_getitem _channels channels_num;
  do (sample_count, pos) <- parse_ui32 data pos;
  let data_length := length - ((pos - original_pos) / 8) in
  do (payload, pos) <- parse_bytes data pos data_length;
  OK {| id := id; format := format; sampling_rate := sampling_rate;
        bits_per_sample := bits_per_sample; channels := channels;
        sample_count := sample_count; data := payload |}.

End DefineSound.

(** ** Tag: framing, registry and dispatch *)

Module Tag.

(** [Tag] itself and its subclasses. *)
Inductive cls :=
  | Base
  | End | ShowFrame | DefineShape | PlaceObject | RemoveObject | DefineBits
  | DefineButton | JPEGTables | SetBackgroundColor | DefineFont | DefineText
  | DoAction | DefineFontInfo | DefineSound | StartSound | DefineButtonSound
  | SoundStreamHead | SoundStreamBlock | DefineBitsLossless | DefineBitsJPEG2
  | DefineShape2 | DefineButtonCxform | Protect | PlaceObject2 | RemoveObject2
  | DefineShape3 | DefineText2 | DefineButton2 | DefineBitsJPEG3
  | DefineBitsLossless2 | DefineEditText | DefineSprite | FrameLabel
  | SoundStreamHead2 | DefineMorphShape | DefineFont2 | ExportAssets
  | ImportAssets | EnableDebugger | DoInitAction | DefineVideoStream
  | VideoFrame | DefineFontInfo2 | EnableDebugger2 | ScriptLimits
  | SetTabIndex | FileAttributes | PlaceObject3 | ImportAssets2
  | DefineFontAlignZones | CSMTextSettings | DefineFont3 | SymbolClass
  | Metadata | DefineScalingGrid | DoABC | DefineShape4 | DefineMorphShape2
  | DefineSceneAndFrameLabelData | DefineBinaryData | DefineFontName
  | StartSound2 | DefineBitsJPEG4 | DefineFont4 | EnableTelemetry.

(** The [class X(Tag, num=n)] statements, in the order of the module. *)
Definition subclasses : list (Z * cls) :=
  [ (0, End); (1, ShowFrame); (2, DefineShape); (4, PlaceObject);
    (5, RemoveObject); (6, DefineBits); (7, DefineButton); (8, JPEGTables);
    (9, SetBackgroundColor); (10, DefineFont); (11, DefineText);
    (12, DoAction); (13, DefineFontInfo); (14, DefineSound);
    (15, StartSound); (17, DefineButtonSound); (18, SoundStreamHead);
    (19, SoundStreamBlock); (20, DefineBitsLossless); (21, DefineBitsJPEG2);
    (22, DefineShape2); (23, DefineButtonCxform); (24, Protect);
    (26, PlaceObject2); (28, RemoveObject2); (32, DefineShape3);
    (33, DefineText2); (34, DefineButton2); (35, DefineBitsJPEG3);
    (36, DefineBitsLossless2); (37, DefineEditText); (39, DefineSprite);
    (43, FrameLabel); (45, SoundStreamHead2); (46, DefineMorphShape);
    (48, DefineFont2); (56, ExportAssets); (57, ImportAssets);
    (58, EnableDebugger); (59, DoInitAction); (60, DefineVideoStream);
    (61, VideoFrame); (62, DefineFontInfo2); (64, EnableDebugger2);
    (65, ScriptLimits); (66, SetTabIndex); (69, FileAttributes);
    (70, PlaceObject3); (71, ImportAssets2); (73, DefineFontAlignZones);
    (74, CSMTextSettings); (75, DefineFont3); (76, SymbolClass);
    (77, Metadata); (78, DefineScalingGrid); (82, DoABC);
    (83, DefineShape4); (84, DefineMorphShape2);
    (86, DefineSceneAndFrameLabelData); (87, DefineBinaryData);
    (88, DefineFontName); (89, StartSound2); (90, DefineBitsJPEG4);
    (91, DefineFont4); (93, EnableTelemetry) ].

(** [__init_subclass__] runs [Tag._types_by_num[num] = cls] once per
    subclass, a later statement overwriting an earlier one. *)
Definition __init_subclass__ (registry : gmap Z cls) (entry : Z * cls)
  : gmap Z cls :=
  <[entry.1 := entry.2]> registry.

Definition _types_by_num : gmap Z cls :=
  fold_left __init_subclass__ subclasses ∅.

(** What [_parse] leaves on the tag.  [Tag._parse] assigns the whole
    return value of [parse_bytes], a (bytes, position) pair, to
    [self.data]; [DefineSound._parse] sets the attributes of
    [DefineSound.t]. *)
Inductive body :=
  | Generic (data : list byte * Z)
  | Sound (attrs : DefineSound.t).

Record t := {
  class : cls;
  type_num : Z;
  length : Z;
  contents : body
}.

Definition _parse (length : Z) (data : list byte) (pos : Z) : outcome body :=
  do r <- parse_bytes data pos length;
  OK (Generic r).

(** [tag._parse(data, pos)]: [DefineSound] overrides the method, every
    other subclass has an empty body and inherits [Tag._parse]. *)
Definition call__parse (c : cls) (length : Z) (data : list byte) (pos : Z)
  : outcome body :=
  match c with
  | DefineSound =>
      do attrs <- DefineSound._parse length data pos;
      OK (Sound attrs)
  | _ => _parse length data pos
  end.

(** The class [Tag.parse] instantiates: [Tag._types_by_num[type_num]],
    and [Tag] itself when that lookup raises [KeyError]. *)
Definition class_of (type_num : Z) : cls :=
  match _types_by_num !! type_num with
  | Some tag_class => tag_class
  | None => Base
  end.

Definition parse (data : list byte) (pos : Z) : outcome (t * Z) :=
  do (type_and_length, pos) <- parse_ui16 data pos;
  let type_num := Z.shiftr type_and_length 6 in
  let length := Z.land type_and_length 0x3F in
  do (length, pos) <-
    (if length =? 0x3F then parse_ui32 data pos else OK (length, pos));
  let tag_class := class_of type_num in
  do contents <- call__parse tag_class length data pos;
  OK ({| class := tag_class; type_num := type_num; length := length;
         contents := contents |}, pos + 8 * length).

(** The first two steps of [parse] on their own: the type, the declared
    length and the position just after the framing. *)
Definition framing (data : list byte) (pos : Z) : outcome (Z * Z * Z) :=
  do (type_and_length, pos) <- parse_ui16 data pos;
  let type_num := Z.shiftr type_and_length 6 in
  let length := Z.land type_and_length 0x3F in
  do (length, pos) <-
    (if length =? 0x3F then parse_ui32 data pos else OK (length, pos));
  OK (type_num, length, pos).

End Tag.

(** ** SWFData *)

Module SWFData.

(** [tags] exists only when the header declares no compression. *)
Record t := {
  header : Header.t;
  tags : option (list Tag.t)
}.

(** The [while pos // 8 < len(data)] loop; [None] when [fuel] iterations
    did not reach its exit. *)
Fixpoint tags_loop (fuel : nat) (data : list byte) (pos : Z)
  (tags : list Tag.t) : option (outcome (list Tag.t)) :=
  match fuel with
  | O => None
  | S fuel' =>
      if pos / 8 <? len data then
        match Tag.parse data pos with
        | OK (tag, pos) => tags_loop fuel' data pos (tags ++ [tag])
        | Raise e => Some (Raise e)
        end
      else Some (OK tags)
  end.

Definition __init__ (fuel : nat) (data : list byte) : option (outcome t) :=
  let pos := 0 in
  match Header.parse data pos with
  | Raise e => Some (Raise e)
  | OK (header, pos) =>
      match Header.compression header with
      | None =>
          match tags_loop fuel data pos [] with
          | None => None
          | Some (OK tags) =>
              Some (OK {| header := header; tags := Some tags |})
          | Some (Raise e) => Some (Raise e)
          end
      | Some _ => Some (OK {| header := header; tags := None |})
      end
  end.

End SWFData.

(** ** Auxiliary definitions for the statements *)

(** The little-endian fold of [parse_uint_loop] over the bytes it reads. *)
Fixpoint le_fold (bs : list byte) (i acc : Z) : Z :=
  match bs with
  | [] => acc
  | b :: bs' => le_fold bs' (i + 1) (Z.lor acc (Z.shiftl (byte_val b) (8 * i)))
  end.

(** The fold of [parse_ub_loop] over [n] bits of one byte of value [b],
    from bit offset [j] (0 is the most significant bit) on. *)
Fixpoint bits_fold (b : Z) (n : nat) (j acc : Z) : Z :=
  match n with
  | O => acc
  | S n' => bits_fold b n' (j + 1) (2 * acc + Z.land (Z.shiftr b (7 - j)) 1)
  end.

(** *** An encoder for the round-trip statement

    The module has no encoder.  The round-trip property is stated over
    this one: the [width]-bit two's-complement pattern of an integer, most
    significant bit first, placed in a stream of bits that is packed into
    bytes eight at a time, the first bit of the stream in the top bit of
    the first byte and the last byte padded with zero bits. *)

Fixpoint encode_sb (width : nat) (v : Z) : list bool :=
  match width with
  | O => []
  | S w => Z.testbit v (Z.of_nat w) :: encode_sb w v
  end.

Definition bit_at (bits : list bool) (i : nat) : bool :=
  default false (bits !! i).

Definition byte_at (bits : list bool) (k : nat) : byte :=
  Byte.of_bits
    (bit_at bits (8 * k + 7), (bit_at bits (8 * k + 6),
    (bit_at bits (8 * k + 5), (bit_at bits (8 * k + 4),
    (bit_at bits (8 * k + 3), (bit_at bits (8 * k + 2),
    (bit_at bits (8 * k + 1), bit_at bits (8 * k)))))))).

Definition pack_bits (bits : list bool) : list byte :=
  map (byte_at bits) (seq 0 ((List.length bits + 7) / 8)).

(** The fold of [parse_ub_loop] over a list of bits. *)
Definition ub_fold (bits : list bool) (acc : Z) : Z :=
  fold_left (fun a c => 2 * a + Z.b2z c) bits acc.

(** The number whose base-256 digits, least significant first, are the
    bytes. *)
Fixpoint le_value (bs : list byte) : Z :=
  match bs with
  | [] => 0
  | b :: bs' => byte_val b + 256 * le_value bs'
  end.

(** What every tag returned by [Tag.parse] satisfies. *)
Definition tag_in_range (tag : Tag.t) : Prop :=
  0 <= Tag.type_num tag < 1024 /\ 0 <= Tag.length tag < 2 ^ 32 /\
  Tag.class tag = Tag.class_of (Tag.type_num tag).

(** * Properties *)

(** ** The error monad *)

Lemma bind_OK {A B} (m : outcome A) (k : A -> outcome B) (b : B) :
  bind m k = OK b -> exists a, m = OK a /\ k a = OK b.
Proof. destruct m as [a|e]; simpl; [eauto | discriminate]. Qed.

Lemma bind_Raise {A B} (m : outcome A) (k : A -> outcome B) (e : exn) :
  m = Raise e -> bind m k = Raise e.
Proof. intros ->. reflexivity. Qed.

(** Splits a successful [do]-chain in the hypotheses into its steps. *)
Ltac invert_do :=
  repeat match goal with
  | H : bind _ _ = OK _ |- _ =>
      let a := fresh "a" in let Ha := fresh "Ha" in
      apply bind_OK in H; destruct H as (a & Ha & H)
  | H : OK _ = OK _ |- _ => injection H as H; try subst
  | H : Raise _ = OK _ |- _ => discriminate H
  | a : (_ * _)%type |- _ => destruct a
  | a : unit |- _ => destruct a
  end.

Ltac euclid := Z.to_euclidean_division_equations; lia.

(** ** Bytes and indexing *)

Lemma byte_val_range (b : byte) : 0 <= byte_val b < 256.
Proof. destruct b; vm_compute; split; congruence. Qed.

Lemma len_nonneg data : 0 <= len data.
Proof. unfold len. lia. Qed.

Lemma getitem_lookup data (k : nat) b :
  data !! k = Some b -> getitem data (Z.of_nat k) = OK (byte_val b).
Proof.
  intros Hk. pose proof (lookup_lt_Some _ _ _ Hk) as Hlt.
  unfold getitem, len.
  destruct (Z.ltb_spec (Z.of_nat k) 0) as [?|_]; [lia|].
  destruct (Z.ltb_spec (Z.of_nat k) 0) as [?|_]; [lia|].
  destruct (Z.leb_spec (Z.of_nat (List.length data)) (Z.of_nat k)) as [?|_];
    [lia|].
  simpl. rewrite Nat2Z.id, Hk. reflexivity.
Qed.

Lemma getitem_OK_nonneg data i v :
  0 <= i -> getitem data i = OK v ->
  i < len data /\ exists b, data !! Z.to_nat i = Some b /\ v = byte_val b.
Proof.
  intros Hi. unfold getitem.
  destruct (Z.ltb_spec i 0) as [?|_]; [lia|].
  destruct (Z.ltb_spec i 0) as [?|_]; [lia|].
  destruct (Z.leb_spec (len data) i) as [?|Hlt]; simpl; [discriminate|].
  destruct (data !! Z.to_nat i) as [b|]; [|discriminate].
  intros [= <-]. eauto.
Qed.

Lemma getitem_in_range data i :
  0 <= i < len data -> exists b, data !! Z.to_nat i = Some b /\
                                 getitem data i = OK (byte_val b).
Proof.
  intros Hi. destruct (lookup_lt_is_Some_2 data (Z.to_nat i)) as [b Hb].
  { unfold len in Hi. lia. }
  exists b. split; [exact Hb|].
  rewrite <- (Z2Nat.id i) at 1 by lia. apply getitem_lookup, Hb.
Qed.

(** For bounds inside the buffer the slice is [take] after [drop], which
    clip at the end of the list the way the slice does. *)
Lemma getslice_nonneg data s n :
  0 <= s -> 0 <= n ->
  getslice data s (s + n) = take (Z.to_nat n) (drop (Z.to_nat s) data).
Proof.
  intros Hs Hn. unfold getslice, adjust_index.
  pose proof (len_nonneg data) as Hl.
  destruct (Z.ltb_spec s 0) as [?|_]; [lia|].
  destruct (Z.ltb_spec (s + n) 0) as [?|_]; [lia|].
  destruct (Z.le_gt_cases (len data) s) as [Hge|Hlt].
  - rewrite !drop_ge by (unfold len in *; lia).
    rewrite !take_nil. reflexivity.
  - rewrite (Z.min_l s) by lia.
    destruct (Z.le_gt_cases (s + n) (len data)) as [Hfit|Hover].
    + rewrite Z.min_l by lia. f_equal. lia.
    + rewrite Z.min_r by lia.
      rewrite !take_ge; [reflexivity | |];
        rewrite length_drop; unfold len in *; lia.
Qed.

Lemma length_take_drop (data : list byte) (s n : nat) :
  List.length (take n (drop s data)) = Nat.min n (List.length data - s).
Proof. rewrite length_take, length_drop. reflexivity. Qed.

(** ** Alignment and byte-aligned integers *)

Lemma byte_align_OK pos p :
  byte_align pos = OK p -> 0 <= pos <= p /\ p < pos + 8 /\ p mod 8 = 0.
Proof.
  unfold byte_align. destruct (Z.ltb_spec pos 0); [discriminate|].
  intros [= <-]. euclid.
Qed.

Lemma byte_align_aligned pos :
  0 <= pos -> pos mod 8 = 0 -> byte_align pos = OK pos.
Proof.
  intros H0 H8. unfold byte_align.
  destruct (Z.ltb_spec pos 0); [lia|]. f_equal. euclid.
Qed.

Lemma check_aligned pos : pos mod 8 = 0 -> _check_byte_alignment pos = OK tt.
Proof. intros H. unfold _check_byte_alignment. rewrite H. reflexivity. Qed.

Lemma check_OK pos u : _check_byte_alignment pos = OK u -> pos mod 8 = 0.
Proof.
  unfold _check_byte_alignment.
  destruct (Z.eqb_spec (pos mod 8) 0); [auto | discriminate].
Qed.

Lemma get_byte_OK data pos v p :
  0 <= pos -> get_byte data pos = OK (v, p) ->
  pos mod 8 = 0 /\ p = pos + 8 /\ pos / 8 < len data /\ 0 <= v < 256.
Proof.
  intros H0 H. unfold get_byte in H. invert_do.
  apply check_OK in Ha.
  apply getitem_OK_nonneg in Ha0 as (Hlt & b & _ & ->); [|euclid].
  pose proof (byte_val_range b). auto.
Qed.

Lemma get_byte_lookup data pos b :
  0 <= pos -> pos mod 8 = 0 -> data !! Z.to_nat (pos / 8) = Some b ->
  get_byte data pos = OK (byte_val b, pos + 8).
Proof.
  intros H0 H8 Hb. unfold get_byte. rewrite check_aligned by exact H8.
  simpl. rewrite <- (Z2Nat.id (pos / 8)) by euclid.
  rewrite (getitem_lookup _ _ _ Hb). reflexivity.
Qed.

Lemma parse_uint_loop_OK data n : forall i acc pos v p,
  0 <= pos -> 0 <= acc -> 0 <= i ->
  parse_uint_loop data n i acc pos = OK (v, p) ->
  p = pos + 8 * Z.of_nat n /\ 0 <= v /\
  (n <> O -> pos mod 8 = 0 /\ pos / 8 + Z.of_nat n <= len data).
Proof.
  induction n as [|n IH]; intros i acc pos v p Hpos Hacc Hi H; simpl in H.
  - injection H as <- <-. split; [lia|]. split; [lia|]. congruence.
  - invert_do. apply get_byte_OK in Ha as (H8 & -> & Hlt & Hz); [|lia].
    apply IH in H as (-> & Hv & Hn); [ | lia | | lia].
    + split; [lia|]. split; [lia|]. intros _. split; [exact H8|].
      destruct n as [|n']; [lia|].
      destruct Hn as [_ Hn]; [congruence|]. euclid.
    + apply Z.lor_nonneg. split; [lia|]. apply Z.shiftl_nonneg. lia.
Qed.

Lemma parse_uint_OK data pos n v p :
  parse_uint data pos n = OK (v, p) ->
  0 <= pos /\ pos + 8 * Z.of_nat (Z.to_nat n) <= p /\
  p < pos + 8 + 8 * Z.of_nat (Z.to_nat n) /\ p mod 8 = 0 /\ 0 <= v /\
  (0 < n -> p / 8 <= len data).
Proof.
  unfold parse_uint. intros H. invert_do.
  apply byte_align_OK in Ha as ((H0 & Hle) & Hlt & H8).
  apply parse_uint_loop_OK in H as (-> & Hv & Hn); [|lia..].
  repeat split; [lia | lia | lia | euclid | lia |].
  intros Hpos. destruct Hn as [_ Hn]; [lia|]. euclid.
Qed.

Lemma parse_uint_loop_in_range data n : forall i acc pos,
  0 <= pos -> pos mod 8 = 0 -> pos / 8 + Z.of_nat n <= len data ->
  parse_uint_loop data n i acc pos =
    OK (le_fold (take n (drop (Z.to_nat (pos / 8)) data)) i acc,
        pos + 8 * Z.of_nat n).
Proof.
  induction n as [|n IH]; intros i acc pos H0 H8 Hfit.
  - cbn [parse_uint_loop]. rewrite take_0. cbn [le_fold]. do 2 f_equal. lia.
  - destruct (getitem_in_range data (pos / 8)) as (b & Hb & _); [euclid|].
    cbn [parse_uint_loop]. rewrite (get_byte_lookup _ _ _ H0 H8 Hb).
    cbn [bind]. rewrite IH; [ | lia | euclid | euclid ].
    rewrite (drop_S _ _ _ Hb). cbn [take le_fold firstn].
    replace (Z.to_nat ((pos + 8) / 8)) with (S (Z.to_nat (pos / 8)))
      by euclid.
    do 2 f_equal. lia.
Qed.

Lemma parse_uint_in_range data pos n :
  0 <= pos -> pos mod 8 = 0 -> 0 <= n -> pos / 8 + n <= len data ->
  parse_uint data pos n =
    OK (le_fold (take (Z.to_nat n) (drop (Z.to_nat (pos / 8)) data)) 0 0,
        pos + 8 * n).
Proof.
  intros H0 H8 Hn Hfit. unfold parse_uint.
  rewrite byte_align_aligned by assumption. cbn [bind].
  rewrite parse_uint_loop_in_range by lia. do 2 f_equal. lia.
Qed.

(** ** Width zero in [parse_sb] *)

(** C3, where the code departs from the claim: for every buffer and every
    position, [parse_sb] called with width 0 does not return 0 with the
    position unchanged; [as_signed] evaluates [1 << (0 - 1)] and the call
    raises [ValueError] (negative shift count). *)
Theorem parse_sb_width_zero_raises (data : list byte) (pos : Z) :
  parse_sb data pos 0 = Raise (ValueError NegativeShiftCount).
Proof. reflexivity. Qed.

(** The unsigned read of width zero is the degenerate case the claim
    describes: value 0, position unchanged. *)
Lemma parse_ub_width_zero (data : list byte) (pos : Z) :
  parse_ub data pos 0 = OK (0, pos).
Proof. reflexivity. Qed.

(** A rectangle whose five-bit width prefix is 0 reads four such fields:
    [Rect.parse] raises on it. *)
Example Rect_parse_width_zero :
  Rect.parse [x00; x00] 0 = Raise (ValueError NegativeShiftCount).
Proof. reflexivity. Qed.

(** ** The signature check of the header *)

Lemma Header_init_FWS : Header.__init__ "FWS" = OK None.
Proof. reflexivity. Qed.

Lemma Header_init_CWS : Header.__init__ "CWS" = OK (Some "zlib"%string).
Proof. reflexivity. Qed.

Lemma Header_init_ZWS : Header.__init__ "ZWS" = OK (Some "lzma"%string).
Proof. reflexivity. Qed.

Lemma Header_init_bad_ending (c1 c2 c3 : ascii) :
  (c2, c3) <> ("W"%char, "S"%char) ->
  Header.__init__ (String c1 (String c2 (String c3 EmptyString))) =
    Raise (ValueError (BadSignatureEnding (String c2 (String c3 EmptyString)))).
Proof.
  intros Hne. unfold Header.__init__. cbn [Header.ending].
  destruct (String.eqb_spec (String c2 (String c3 EmptyString)) "WS")
    as [Heq|_]; [|reflexivity].
  injection Heq as -> ->. congruence.
Qed.

Lemma Header_init_unknown_first (c : ascii) :
  c <> "F"%char -> c <> "C"%char -> c <> "Z"%char ->
  Header.__init__ (String c "WS") = Raise (NameError "header").
Proof.
  intros HF HC HZ. unfold Header.__init__. cbn.
  destruct (Ascii.eqb_spec c "F"); [congruence|].
  destruct (Ascii.eqb_spec c "C"); [congruence|].
  destruct (Ascii.eqb_spec c "Z"); [congruence|]. reflexivity.
Qed.

Lemma parse_ui8_at data pos b :
  0 <= pos -> pos mod 8 = 0 -> data !! Z.to_nat (pos / 8) = Some b ->
  parse_ui8 data pos = OK (byte_val b, pos + 8).
Proof.
  intros H0 H8 Hb. unfold parse_ui8, parse_uint.
  rewrite byte_align_aligned by assumption.
  change (Z.to_nat 1) with 1%nat. cbn [bind parse_uint_loop].
  rewrite (get_byte_lookup _ _ _ H0 H8 Hb). cbn [bind].
  change (8 * 0) with 0. rewrite Z.shiftl_0_r, Z.lor_0_l. reflexivity.
Qed.

Lemma chr_byte_val_inj (b b' : byte) :
  chr (byte_val b) = chr (byte_val b') -> b = b'.
Proof.
  unfold chr, byte_val. rewrite !N2Z.id. intros H.
  apply (f_equal N_of_ascii) in H.
  rewrite !N_ascii_embedding in H.
  - apply (f_equal Byte.of_N) in H. rewrite !Byte.of_to_N in H. congruence.
  - pose proof (Byte.to_N_bounded b'). lia.
  - pose proof (Byte.to_N_bounded b). lia.
Qed.

(** Reads one byte of a buffer given by its first cells. *)
Ltac read_ui8 b :=
  match goal with
  | |- context [parse_ui8 ?data ?pos] =>
      rewrite (parse_ui8_at data pos b) by (first [lia | reflexivity]);
      cbn [bind]
  end.

(** C2, where the code departs from the claim: a signature that ends in
    ['W','S'] and whose first character is none of ['F'], ['C'], ['Z']
    does not make header parsing fail with the [ValueError] the
    constructor means to raise (the spec's InvalidFormat); building the
    message uses the unbound name [header], and the call fails with
    [NameError]. *)
Theorem Header_parse_unknown_compression (b : byte) (rest : list byte) :
  b <> "F"%byte -> b <> "C"%byte -> b <> "Z"%byte ->
  Header.parse (b :: "W"%byte :: "S"%byte :: rest) 0 =
    Raise (NameError "header").
Proof.
  intros HF HC HZ. unfold Header.parse.
  read_ui8 b. read_ui8 "W"%byte. read_ui8 "S"%byte.
  change (chr (byte_val "W")) with "W"%char.
  change (chr (byte_val "S")) with "S"%char.
  rewrite Header_init_unknown_first; [reflexivity | | | ];
    intros Heq;
    [ apply HF | apply HC | apply HZ ];
    apply chr_byte_val_inj; exact Heq.
Qed.

Lemma Header_parse_unknown_compression_XWS :
  Header.parse ["X"%byte; "W"%byte; "S"%byte; x06; x00; x01; x00; x00] 0 =
    Raise (NameError "header").
Proof.
  apply (Header_parse_unknown_compression "X"%byte); discriminate.
Defined.

(** ** Raw byte ranges *)

(** C4 as stated fails: at the byte-aligned position 0 of a two-byte
    buffer, a five-byte slice extends beyond the end of the buffer, yet
    [parse_bytes] does not fail; it returns the two bytes there are and
    the position 40. *)
Lemma parse_bytes_beyond_end_returns :
  let data := [x01; x02] in
  0 mod 8 = 0 /\ len data < 0 / 8 + 5 /\
  parse_bytes data 0 5 = OK ([x01; x02], 40) /\
  forall e, parse_bytes data 0 5 <> Raise e.
Proof. repeat split; discriminate. Qed.

(** C4, amended: at a non-negative byte-aligned position [p], and for
    [n >= 0], [parse_bytes] never fails and advances the position by
    [8 * n] bits.  It returns the bytes of the buffer from byte [p / 8]
    on, at most [n] of them: when the slice fits these are exactly the
    [n] consecutive bytes at [p / 8], and when it extends beyond the end
    of the buffer they are only the bytes that remain. *)
Theorem parse_bytes_slice (data : list byte) (p n : Z) :
  p mod 8 = 0 -> 0 <= p -> 0 <= n ->
  let bytes := take (Z.to_nat n) (drop (Z.to_nat (p / 8)) data) in
  parse_bytes data p n = OK (bytes, p + 8 * n) /\
  (p / 8 + n <= len data ->
     len bytes = n /\
     forall i : nat, (i < Z.to_nat n)%nat ->
       bytes !! i = data !! (Z.to_nat (p / 8) + i)%nat) /\
  (len data < p / 8 + n -> len bytes = Z.max 0 (len data - p / 8)).
Proof.
  intros H8 H0 Hn bytes. split; [|split].
  - unfold parse_bytes. rewrite check_aligned by exact H8. cbn [bind].
    rewrite getslice_nonneg by euclid. reflexivity.
  - intros Hfit. subst bytes. split.
    + unfold len in *. rewrite length_take_drop. euclid.
    + intros i Hi. rewrite lookup_take_lt by exact Hi.
      apply lookup_drop.
  - intros Hover. subst bytes. unfold len in *.
    rewrite length_take_drop. euclid.
Qed.

Lemma parse_bytes_slice_fits :
  parse_bytes [x0a; x0b; x0c; x0d] 8 2 = OK ([x0b; x0c], 24).
Proof.
  exact (proj1 (parse_bytes_slice [x0a; x0b; x0c; x0d] 8 2
                  eq_refl ltac:(lia) ltac:(lia))).
Defined.

(** ** Tag framing and the position after a tag *)

Lemma framing_OK data pos ty L pf :
  Tag.framing data pos = OK (ty, L, pf) ->
  0 <= pos /\ pos + 16 <= pf /\ pf mod 8 = 0 /\ 0 <= L /\ 0 <= ty /\
  pf / 8 <= len data.
Proof.
  unfold Tag.framing, parse_ui16, parse_ui32.
  destruct (parse_uint data pos 2) as [[tl p]|e] eqn:Htl; [|discriminate].
  cbn [bind]. intros H.
  apply parse_uint_OK in Htl as (H0 & Hle & _ & H8 & Hv & Hfit).
  change (Z.of_nat (Z.to_nat 2)) with 2 in Hle.
  assert (0 <= Z.shiftr tl 6) as Hty by (apply Z.shiftr_nonneg; lia).
  destruct (Z.eqb_spec (Z.land tl 63) 63) as [Heq|Hne].
  - destruct (parse_uint data p 4) as [[l p']|e] eqn:Hl; [|discriminate].
    injection H as <- <- <-.
    apply parse_uint_OK in Hl as (_ & Hle' & _ & H8' & Hv' & Hfit').
    change (Z.of_nat (Z.to_nat 4)) with 4 in Hle'.
    repeat split; lia.
  - injection H as <- <- <-.
    assert (0 <= Z.land tl 63) by (apply Z.land_nonneg; lia).
    repeat split; lia.
Qed.

(** [Tag.parse] is its framing, then the body parser of the class, then
    the position computed from the declared length. *)
Lemma parse_via_framing data pos :
  Tag.parse data pos =
    do f <- Tag.framing data pos;
    let '(type_num, length, pos) := f in
    do contents <- Tag.call__parse (Tag.class_of type_num) length data pos;
    OK ({| Tag.class := Tag.class_of type_num; Tag.type_num := type_num;
           Tag.length := length; Tag.contents := contents |},
        pos + 8 * length).
Proof.
  unfold Tag.parse, Tag.framing.
  destruct (parse_ui16 data pos) as [[tl p]|e]; [|reflexivity]. cbn [bind].
  destruct (Z.land tl 63 =? 63); [|reflexivity].
  destruct (parse_ui32 data p) as [[l p']|e]; reflexivity.
Qed.

Lemma Tag__parse_aligned length data pos :
  pos mod 8 = 0 ->
  Tag._parse length data pos =
    OK (Tag.Generic (getslice data (pos / 8) (pos / 8 + length),
                     pos + 8 * length)).
Proof.
  intros H8. unfold Tag._parse, parse_bytes.
  rewrite check_aligned by exact H8. reflexivity.
Qed.

Lemma call__parse_inherited c length data pos :
  c <> Tag.DefineSound ->
  Tag.call__parse c length data pos = Tag._parse length data pos.
Proof. intros Hc. destruct c; try reflexivity. congruence. Qed.

(** C1: when the framing of a tag at [pos] decodes to a declared length
    [L] and ends at position [pf], every position [Tag.parse] returns is
    [pf + 8 * L], for the specialized body parser and for the generic
    one alike.  [Tag.parse] does return, with that position and with the
    type and length of the framing, whenever the body parser of the
    tag's class returns; the generic one always does. *)
Theorem Tag_parse_position (data : list byte) (pos ty L pf : Z) :
  Tag.framing data pos = OK (ty, L, pf) ->
  (forall tag p, Tag.parse data pos = OK (tag, p) ->
     p = pf + 8 * L /\ Tag.type_num tag = ty /\ Tag.length tag = L) /\
  (forall contents,
     Tag.call__parse (Tag.class_of ty) L data pf = OK contents ->
     Tag.parse data pos =
       OK ({| Tag.class := Tag.class_of ty; Tag.type_num := ty;
              Tag.length := L; Tag.contents := contents |}, pf + 8 * L)) /\
  (Tag.class_of ty <> Tag.DefineSound ->
     exists contents,
       Tag.call__parse (Tag.class_of ty) L data pf = OK contents).
Proof.
  intros Hf. pose proof (framing_OK _ _ _ _ _ Hf) as (_ & _ & H8 & _).
  split; [|split].
  - intros tag p. rewrite parse_via_framing, Hf. cbn [bind].
    intros H. invert_do. auto.
  - intros contents Hc. rewrite parse_via_framing, Hf. cbn [bind].
    rewrite Hc. reflexivity.
  - intros Hc. rewrite call__parse_inherited by exact Hc.
    rewrite Tag__parse_aligned by exact H8. eauto.
Qed.

Lemma Tag_parse_position_long_form :
  Tag.parse [xff; x00; x02; x00; x00; x00; xaa; xbb; xcc] 0 =
    OK ({| Tag.class := Tag.Base; Tag.type_num := 3; Tag.length := 2;
           Tag.contents := Tag.Generic ([xaa; xbb], 64) |}, 64).
Proof.
  exact (proj1 (proj2 (Tag_parse_position
                         [xff; x00; x02; x00; x00; x00; xaa; xbb; xcc]
                         0 3 2 48 eq_refl))
           (Tag.Generic ([xaa; xbb], 64)) eq_refl).
Defined.

(** ** The generic body *)

(** C5, where the code departs from the claim: for a tag whose type has
    no registered class and whose framing declares [N] bytes that the
    buffer holds, the body stored on the tag is not the [N] raw bytes
    that follow the framing.  [Tag._parse] assigns the return value of
    [parse_bytes] to [self.data] whole, where [DefineSound._parse]
    unpacks it, so the tag's [data] is a pair: those [N] bytes, byte for
    byte, together with the position after them. *)
Theorem Tag_parse_generic_stores_pair (data : list byte) (pos ty N pf : Z) :
  Tag.framing data pos = OK (ty, N, pf) ->
  Tag._types_by_num !! ty = None ->
  pf / 8 + N <= len data ->
  let bytes := take (Z.to_nat N) (drop (Z.to_nat (pf / 8)) data) in
  len bytes = N /\
  (forall i : nat, (i < Z.to_nat N)%nat ->
     bytes !! i = data !! (Z.to_nat (pf / 8) + i)%nat) /\
  Tag.parse data pos =
    OK ({| Tag.class := Tag.Base; Tag.type_num := ty; Tag.length := N;
           Tag.contents := Tag.Generic (bytes, pf + 8 * N) |},
        pf + 8 * N).
Proof.
  intros Hf Hreg Hfit bytes.
  pose proof (framing_OK _ _ _ _ _ Hf) as (H0 & Hpf & H8 & HN & _ & Hin).
  assert (Tag.class_of ty = Tag.Base) as Hc
    by (unfold Tag.class_of; rewrite Hreg; reflexivity).
  split; [|split].
  - subst bytes. unfold len in *. rewrite length_take_drop. euclid.
  - intros i Hi. subst bytes. rewrite lookup_take_lt by exact Hi.
    apply lookup_drop.
  - rewrite parse_via_framing, Hf. cbn [bind]. rewrite Hc.
    cbn [Tag.call__parse]. rewrite Tag__parse_aligned by exact H8.
    cbn [bind]. rewrite getslice_nonneg by euclid. reflexivity.
Qed.

Lemma Tag_parse_generic_stores_pair_short_form :
  Tag.parse [xc2; x00; xaa; xbb; xcc] 0 =
    OK ({| Tag.class := Tag.Base; Tag.type_num := 3; Tag.length := 2;
           Tag.contents := Tag.Generic ([xaa; xbb], 32) |}, 32).
Proof.
  exact (proj2 (proj2 (Tag_parse_generic_stores_pair
                         [xc2; x00; xaa; xbb; xcc] 0 3 2 16
                         eq_refl eq_refl ltac:(vm_compute; discriminate)))).
Defined.

(** ** Bit fields inside one byte *)

Section InByte.

(** A byte [b] of the buffer and the position [p] of its first bit. *)
Variables (data : list byte) (p : Z) (b : byte).
Hypothesis p_nonneg : 0 <= p.
Hypothesis p_aligned : p mod 8 = 0.
Hypothesis b_at_p : data !! Z.to_nat (p / 8) = Some b.

Lemma get_bit_lookup (j : Z) :
  0 <= j < 8 ->
  get_bit data (p + j) =
    OK (Z.land (Z.shiftr (byte_val b) (7 - j)) 1, p + j + 1).
Proof.
  intros Hj. unfold get_bit.
  replace ((p + j) / 8) with (Z.of_nat (Z.to_nat (p / 8))) by euclid.
  rewrite (getitem_lookup _ _ _ b_at_p). cbn [bind].
  replace ((p + j) mod 8) with j by euclid. reflexivity.
Qed.

Lemma parse_ub_loop_in_byte :
  forall (n : nat) (j acc : Z),
    0 <= j -> j + Z.of_nat n <= 8 ->
    parse_ub_loop data n acc (p + j) =
      OK (bits_fold (byte_val b) n j acc, p + (j + Z.of_nat n)).
Proof.
  induction n as [|n IH]; intros j acc Hj Hn.
  - cbn [parse_ub_loop bits_fold]. do 2 f_equal. lia.
  - cbn [parse_ub_loop bits_fold].
    rewrite get_bit_lookup by lia. cbn [bind].
    replace (p + j + 1) with (p + (j + 1)) by lia.
    rewrite IH by lia. do 2 f_equal. lia.
Qed.

Lemma parse_ub_in_byte (j n : Z) :
  0 <= j -> 0 <= n -> j + n <= 8 ->
  parse_ub data (p + j) n =
    OK (bits_fold (byte_val b) (Z.to_nat n) j 0, p + (j + n)).
Proof.
  intros Hj Hn Hjn. unfold parse_ub.
  rewrite parse_ub_loop_in_byte by lia. do 2 f_equal. lia.
Qed.

End InByte.

(** The four fields of the flags byte of a DefineSound body. *)
Lemma flags_format (b : byte) :
  bits_fold (byte_val b) 4 0 0 = Z.shiftr (byte_val b) 4.
Proof. destruct b; reflexivity. Qed.

Lemma flags_sampling_rate (b : byte) :
  bits_fold (byte_val b) 2 4 0 = Z.land (Z.shiftr (byte_val b) 2) 3.
Proof. destruct b; reflexivity. Qed.

Lemma flags_bits_per_sample (b : byte) :
  bits_fold (byte_val b) 1 6 0 = Z.land (Z.shiftr (byte_val b) 1) 1.
Proof. destruct b; reflexivity. Qed.

Lemma flags_channels (b : byte) :
  bits_fold (byte_val b) 1 7 0 = Z.land (byte_val b) 1.
Proof. destruct b; reflexivity. Qed.

Lemma sampling_rate_mapped (b : byte) :
  is_Some (DefineSound._sampling_rates
             !! Z.land (Z.shiftr (byte_val b) 2) 3).
Proof. destruct b; vm_compute; eauto. Qed.

Lemma bits_per_sample_mapped (b : byte) :
  is_Some (DefineSound._bits_per_sample
             !! Z.land (Z.shiftr (byte_val b) 1) 1).
Proof. destruct b; vm_compute; eauto. Qed.

Lemma channels_mapped (b : byte) :
  is_Some (DefineSound._channels !! Z.land (byte_val b) 1).
Proof. destruct b; vm_compute; eauto. Qed.

(** ** The DefineSound body *)

(** Once the id is read and the flags byte [b] is in the buffer, the bit
    fields are those of [b] and the body parser is this chain. *)
Lemma DefineSound__parse_flags length data pos id p b :
  parse_ui16 data pos = OK (id, p) ->
  data !! Z.to_nat (p / 8) = Some b ->
  DefineSound._parse length data pos =
    do format <-
      dict_getitem DefineSound._formats (Z.shiftr (byte_val b) 4);
    do sampling_rate <-
      dict_getitem DefineSound._sampling_rates
        (Z.land (Z.shiftr (byte_val b) 2) 3);
    do bits_per_sample <-
      dict_getitem DefineSound._bits_per_sample
        (Z.land (Z.shiftr (byte_val b) 1) 1);
    do channels <-
      dict_getitem DefineSound._channels (Z.land (byte_val b) 1);
    do (sample_count, pos') <- parse_ui32 data (p + 8);
    do (payload, _) <-
      parse_bytes data pos' (length - (pos' - pos) / 8);
    OK {| DefineSound.id := id; DefineSound.format := format;
          DefineSound.sampling_rate := sampling_rate;
          DefineSound.bits_per_sample := bits_per_sample;
          DefineSound.channels := channels;
          DefineSound.sample_count := sample_count;
          DefineSound.data := payload |}.
Proof.
  intros Hid Hb. pose proof Hid as Hp.
  apply parse_uint_OK in Hp as (H0 & Hle & _ & H8 & _).
  assert (0 <= p) as Hp0 by lia.
  unfold DefineSound._parse. rewrite Hid. cbn [bind].
  replace p with (p + 0) at 1 by lia.
  rewrite (parse_ub_in_byte _ _ _ Hp0 H8 Hb 0 4) by lia.
  cbn [bind]. change (Z.to_nat 4) with 4%nat. rewrite flags_format.
  destruct (dict_getitem DefineSound._formats _) as [format|e];
    [|reflexivity].
  cbn [bind]. change (0 + 4) with 4.
  rewrite (parse_ub_in_byte _ _ _ Hp0 H8 Hb 4 2) by lia.
  cbn [bind]. change (Z.to_nat 2) with 2%nat. rewrite flags_sampling_rate.
  destruct (dict_getitem DefineSound._sampling_rates _) as [rate|e];
    [|reflexivity].
  cbn [bind]. change (4 + 2) with 6.
  rewrite (parse_ub_in_byte _ _ _ Hp0 H8 Hb 6 1) by lia.
  cbn [bind]. change (Z.to_nat 1) with 1%nat. rewrite flags_bits_per_sample.
  destruct (dict_getitem DefineSound._bits_per_sample _) as [bits|e];
    [|reflexivity].
  cbn [bind]. change (6 + 1) with 7.
  rewrite (parse_ub_in_byte _ _ _ Hp0 H8 Hb 7 1) by lia.
  cbn [bind]. change (Z.to_nat 1) with 1%nat. rewrite flags_channels.
  destruct (dict_getitem DefineSound._channels _) as [channels|e];
    [|reflexivity].
  cbn [bind]. change (7 + 1) with 8.
  destruct (parse_ui32 data (p + 8)) as [[sc p']|e]; [|reflexivity].
  cbn [bind].
  destruct (parse_bytes data p' _) as [[payload p'']|e]; reflexivity.
Qed.

Lemma parse_bytes_aligned data pos n :
  pos mod 8 = 0 ->
  parse_bytes data pos n =
    OK (getslice data (pos / 8) (pos / 8 + n), pos + 8 * n).
Proof.
  intros H8. unfold parse_bytes. rewrite check_aligned by exact H8.
  reflexivity.
Qed.

(** C8: in the body of a DefineSound tag, with the id read and the flags
    byte in the buffer, a format nibble without an entry in [_formats]
    makes the body parser raise [KeyError] carrying that nibble; with an
    entry, and the sample count readable, the parser returns the format,
    sampling rate, sample size and channels that the four tables give for
    the four bit fields of the flags byte.  The tables map format 2 to
    ["MP3"], rate code 3 to 44100, size bit 1 to 16 and channel bit 1 to
    ["stereo"], and the format nibbles without an entry are 7, 8, 9, 10,
    12, 13, 14 and 15. *)
Theorem DefineSound_descriptor (length : Z) (data : list byte)
    (pos id p : Z) (b : byte) :
  parse_ui16 data pos = OK (id, p) ->
  data !! Z.to_nat (p / 8) = Some b ->
  let flags := byte_val b in
  (DefineSound._formats !! Z.shiftr flags 4 = None ->
   DefineSound._parse length data pos = Raise (KeyError (Z.shiftr flags 4)))
  /\
  (forall fmt sc p',
     DefineSound._formats !! Z.shiftr flags 4 = Some fmt ->
     parse_ui32 data (p + 8) = OK (sc, p') ->
     exists rate bits ch payload,
       DefineSound._sampling_rates !! Z.land (Z.shiftr flags 2) 3
         = Some rate /\
       DefineSound._bits_per_sample !! Z.land (Z.shiftr flags 1) 1
         = Some bits /\
       DefineSound._channels !! Z.land flags 1 = Some ch /\
       DefineSound._parse length data pos =
         OK {| DefineSound.id := id; DefineSound.format := fmt;
               DefineSound.sampling_rate := rate;
               DefineSound.bits_per_sample := bits;
               DefineSound.channels := ch;
               DefineSound.sample_count := sc;
               DefineSound.data := payload |})
  /\
  ((DefineSound._formats !! 2 = Some "MP3"%string) /\
   (DefineSound._sampling_rates !! 3 = Some (Int 44100)) /\
   (DefineSound._bits_per_sample !! 1 = Some 16) /\
   (DefineSound._channels !! 1 = Some "stereo"%string))
  /\
  (forall code, 0 <= code < 16 ->
     DefineSound._formats !! code = None <->
     In code [7; 8; 9; 10; 12; 13; 14; 15]).
Proof.
  intros Hid Hb flags. subst flags. split; [|split; [|split]].
  - intros Hnone. rewrite (DefineSound__parse_flags _ _ _ _ _ _ Hid Hb).
    unfold dict_getitem at 1. rewrite Hnone. reflexivity.
  - intros fmt sc p' Hfmt Hsc.
    destruct (sampling_rate_mapped b) as [rate Hrate].
    destruct (bits_per_sample_mapped b) as [bits Hbits].
    destruct (channels_mapped b) as [ch Hch].
    exists rate, bits, ch, (getslice data (p' / 8)
                              (p' / 8 + (length - (p' - pos) / 8))).
    repeat split; try assumption.
    rewrite (DefineSound__parse_flags _ _ _ _ _ _ Hid Hb).
    unfold dict_getitem. rewrite Hfmt, Hrate, Hbits, Hch, Hsc. cbn [bind].
    apply parse_uint_OK in Hsc as (_ & _ & _ & H8 & _).
    rewrite parse_bytes_aligned by exact H8. reflexivity.
  - repeat split.
  - intros code Hcode.
    assert (code = 0 \/ code = 1 \/ code = 2 \/ code = 3 \/ code = 4 \/
            code = 5 \/ code = 6 \/ code = 7 \/ code = 8 \/ code = 9 \/
            code = 10 \/ code = 11 \/ code = 12 \/ code = 13 \/
            code = 14 \/ code = 15) as Hcases by lia.
    repeat (destruct Hcases as [-> | Hcases]); [.. | subst code];
      vm_compute; intuition congruence.
Qed.

Lemma DefineSound_descriptor_unmapped_format :
  DefineSound._parse 8 [x05; x00; x9f; x01; x00; x00; x00; xaa] 0 =
    Raise (KeyError 9).
Proof.
  exact (proj1 (DefineSound_descriptor 8
                  [x05; x00; x9f; x01; x00; x00; x00; xaa] 0 5 16 x9f
                  eq_refl eq_refl) eq_refl).
Defined.

Example DefineSound_mp3_stereo :
  DefineSound._parse 8 [x05; x00; x2f; x01; x00; x00; x00; xaa] 0 =
    OK {| DefineSound.id := 5; DefineSound.format := "MP3";
          DefineSound.sampling_rate := Int 44100;
          DefineSound.bits_per_sample := 16;
          DefineSound.channels := "stereo";
          DefineSound.sample_count := 1;
          DefineSound.data := [xaa] |}.
Proof. reflexivity. Qed.

(** ** A DefineSound body longer than the declared length *)



(** ** Signed bit fields: decoding an encoded value *)

Lemma of_bits_bit (c0 c1 c2 c3 c4 c5 c6 c7 : bool) :
  let v := byte_val (Byte.of_bits (c7, (c6, (c5, (c4, (c3, (c2, (c1, c0)))))))) in
  Z.land (Z.shiftr v 7) 1 = Z.b2z c0 /\ Z.land (Z.shiftr v 6) 1 = Z.b2z c1 /\
  Z.land (Z.shiftr v 5) 1 = Z.b2z c2 /\ Z.land (Z.shiftr v 4) 1 = Z.b2z c3 /\
  Z.land (Z.shiftr v 3) 1 = Z.b2z c4 /\ Z.land (Z.shiftr v 2) 1 = Z.b2z c5 /\
  Z.land (Z.shiftr v 1) 1 = Z.b2z c6 /\ Z.land (Z.shiftr v 0) 1 = Z.b2z c7.
Proof.
  destruct c0, c1, c2, c3, c4, c5, c6, c7; vm_compute; repeat split.
Qed.

Lemma pack_bits_lookup (bits : list bool) (k : nat) :
  (8 * k < List.length bits)%nat ->
  pack_bits bits !! k = Some (byte_at bits k).
Proof.
  intros Hk. unfold pack_bits.
  change (map (byte_at bits)) with (fmap (M:=list) (byte_at bits)).
  rewrite list_lookup_fmap, lookup_seq_lt; [reflexivity|].
  apply (Nat.div_le_lower_bound _ 8 (S k)); lia.
Qed.

Lemma get_bit_pack (bits : list bool) (i : nat) (c : bool) :
  bits !! i = Some c ->
  get_bit (pack_bits bits) (Z.of_nat i) = OK (Z.b2z c, Z.of_nat i + 1).
Proof.
  intros Hc. pose proof (lookup_lt_Some _ _ _ Hc) as Hlt.
  set (k := (i / 8)%nat). set (j := (i mod 8)%nat).
  assert (i = (8 * k + j)%nat) as Hi by (subst k j; apply Nat.div_mod_eq).
  assert (j < 8)%nat as Hj by (subst j; apply Nat.mod_upper_bound; lia).
  assert (pack_bits bits !! Z.to_nat (8 * Z.of_nat k / 8) = Some (byte_at bits k))
    as Hb.
  { replace (Z.to_nat (8 * Z.of_nat k / 8)) with k by euclid.
    apply pack_bits_lookup. lia. }
  replace (Z.of_nat i) with (8 * Z.of_nat k + Z.of_nat j) by lia.
  rewrite (get_bit_lookup _ (8 * Z.of_nat k) _
             ltac:(lia) ltac:(euclid) Hb (Z.of_nat j) ltac:(lia)).
  f_equal. f_equal.
  assert (bit_at bits (8 * k + j) = c) as Hbit
    by (unfold bit_at; rewrite <- Hi, Hc; reflexivity).
  unfold byte_at.
  pose proof (of_bits_bit (bit_at bits (8 * k)) (bit_at bits (8 * k + 1))
                (bit_at bits (8 * k + 2)) (bit_at bits (8 * k + 3))
                (bit_at bits (8 * k + 4)) (bit_at bits (8 * k + 5))
                (bit_at bits (8 * k + 6)) (bit_at bits (8 * k + 7)))
    as (B0 & B1 & B2 & B3 & B4 & B5 & B6 & B7).
  clear Hb Hi Hc Hlt. subst c.
  destruct j as [|[|[|[|[|[|[|[|j]]]]]]]]; try lia;
    cbn [Z.of_nat Pos.of_succ_nat Pos.succ];
    [ rewrite Nat.add_0_r; exact B0 | exact B1 | exact B2 | exact B3
    | exact B4 | exact B5 | exact B6 | exact B7 ].
Qed.

Lemma parse_ub_loop_pack (bits : list bool) :
  forall (n : nat) (acc : Z) (i : nat),
    (i + n <= List.length bits)%nat ->
    parse_ub_loop (pack_bits bits) n acc (Z.of_nat i) =
      OK (ub_fold (take n (drop i bits)) acc, Z.of_nat (i + n)).
Proof.
  induction n as [|n IH]; intros acc i Hn.
  - rewrite take_0, Nat.add_0_r. reflexivity.
  - destruct (lookup_lt_is_Some_2 bits i) as [c Hc]; [lia|].
    cbn [parse_ub_loop]. rewrite (get_bit_pack _ _ _ Hc). cbn [bind].
    replace (Z.of_nat i + 1) with (Z.of_nat (S i)) by lia.
    rewrite IH by lia. rewrite (drop_S _ _ _ Hc). cbn [take firstn].
    unfold ub_fold. cbn [fold_left]. do 2 f_equal. lia.
Qed.

Lemma ub_fold_encode_sb (v : Z) :
  forall (w : nat) (acc : Z),
    ub_fold (encode_sb w v) acc = acc * 2 ^ Z.of_nat w + v mod 2 ^ Z.of_nat w.
Proof.
  induction w as [|w IH]; intros acc.
  - cbn [encode_sb]. unfold ub_fold. cbn [fold_left].
    change (2 ^ Z.of_nat 0) with 1. rewrite Z.mod_1_r. lia.
  - cbn [encode_sb]. unfold ub_fold in *. cbn [fold_left]. rewrite IH.
    rewrite Z.testbit_spec' by lia.
    replace (Z.of_nat (S w)) with (Z.of_nat w + 1) by lia.
    rewrite Z.pow_add_r by lia. change (2 ^ 1) with 2.
    assert (0 < 2 ^ Z.of_nat w) as Hpos by (apply Z.pow_pos_nonneg; lia).
    rewrite (Z.rem_mul_r v (2 ^ Z.of_nat w) 2) by lia. lia.
Qed.

Lemma length_encode_sb (v : Z) (w : nat) : List.length (encode_sb w v) = w.
Proof. induction w as [|w IH]; [reflexivity|]. cbn. rewrite IH. reflexivity. Qed.

Lemma land_pow2 (u k : Z) :
  0 <= k -> Z.land u (2 ^ k) = if Z.testbit u k then 2 ^ k else 0.
Proof.
  intros Hk. apply Z.bits_inj'. intros n Hn.
  rewrite Z.land_spec, Z.pow2_bits_eqb by exact Hk.
  destruct (Z.eqb_spec k n) as [->|Hne].
  - destruct (Z.testbit u n); [|rewrite Z.bits_0; reflexivity].
    rewrite Z.pow2_bits_true by exact Hn. reflexivity.
  - rewrite andb_false_r.
    destruct (Z.testbit u k); [|rewrite Z.bits_0; reflexivity].
    rewrite Z.pow2_bits_false by exact Hne. reflexivity.
Qed.

Lemma testbit_top (u k : Z) :
  0 <= k -> 0 <= u < 2 ^ (k + 1) ->
  Z.testbit u k = (2 ^ k <=? u).
Proof.
  intros Hk Hu. rewrite Z.pow_add_r in Hu by lia. change (2 ^ 1) with 2 in Hu.
  assert (0 < 2 ^ k) as Hpos by (apply Z.pow_pos_nonneg; lia).
  rewrite Z.testbit_eqb by exact Hk.
  destruct (Z.leb_spec (2 ^ k) u) as [Hge|Hlt].
  - replace (u / 2 ^ k) with 1; [reflexivity|].
    apply (Z.div_unique u (2 ^ k) 1 (u - 2 ^ k)); lia.
  - rewrite Z.div_small by lia. reflexivity.
Qed.

(** [as_signed] undoes the reduction modulo [2 ^ w] of a value in the
    [w]-bit two's-complement range. *)
Lemma as_signed_mod (w v : Z) :
  1 <= w -> - 2 ^ (w - 1) <= v <= 2 ^ (w - 1) - 1 ->
  as_signed (v mod 2 ^ w) w = OK v.
Proof.
  intros Hw Hv.
  assert (0 < 2 ^ (w - 1)) as Hpos by (apply Z.pow_pos_nonneg; lia).
  assert (2 ^ w = 2 * 2 ^ (w - 1)) as Hpow.
  { replace w with (w - 1 + 1) at 1 by lia.
    rewrite Z.pow_add_r by lia. change (2 ^ 1) with 2. lia. }
  unfold as_signed, lshift.
  destruct (Z.ltb_spec (w - 1) 0) as [?|_]; [lia|]. cbn [bind].
  rewrite Z.shiftl_1_l, land_pow2 by lia.
  assert (0 <= v mod 2 ^ w < 2 ^ w) as Hrange
    by (apply Z.mod_pos_bound; lia).
  rewrite testbit_top; [ | lia | replace (w - 1 + 1) with w by lia; lia ].
  destruct (Z.le_gt_cases 0 v) as [Hnn|Hneg].
  - rewrite Z.mod_small by lia.
    destruct (Z.leb_spec (2 ^ (w - 1)) v) as [?|_]; [lia|]. reflexivity.
  - assert (v mod 2 ^ w = v + 2 ^ w) as ->.
    { symmetry. apply (Z.mod_unique v (2 ^ w) (-1)); lia. }
    destruct (Z.leb_spec (2 ^ (w - 1)) (v + 2 ^ w)) as [_|?]; [|lia].
    destruct (Z.eqb_spec (2 ^ (w - 1)) 0) as [?|_]; [lia|]. cbn [negb].
    destruct (Z.ltb_spec w 0) as [?|_]; [lia|]. cbn [bind].
    rewrite Z.shiftl_1_l. f_equal. lia.
Qed.

(** C7: for every width from 0 to 32 and every integer [v] with
    [-2^(width-1) <= v <= 2^(width-1) - 1], the [width]-bit
    two's-complement pattern of [v], written most significant bit first
    at any bit offset of a buffer, is decoded by [parse_sb] at that width
    to [v], and the position advances by [width] bits.  (No integer lies
    in the interval of width 0.) *)
Theorem parse_sb_encode_sb (width v : Z) (before after : list bool) :
  0 <= width <= 32 ->
  - 2 ^ (width - 1) <= v <= 2 ^ (width - 1) - 1 ->
  let bits := before ++ encode_sb (Z.to_nat width) v ++ after in
  let pos := Z.of_nat (List.length before) in
  parse_sb (pack_bits bits) pos width = OK (v, pos + width).
Proof.
  intros Hw Hv bits pos.
  destruct (Z.eq_dec width 0) as [->|Hne].
  { change (2 ^ (0 - 1)) with 0 in Hv. lia. }
  unfold parse_sb, parse_ub. subst pos.
  rewrite parse_ub_loop_pack.
  2:{ subst bits. rewrite !length_app, length_encode_sb. lia. }
  subst bits. rewrite drop_app_length.
  rewrite <- (length_encode_sb v (Z.to_nat width)) at 1.
  rewrite take_app_length, ub_fold_encode_sb. cbn [bind].
  rewrite Z2Nat.id, Z.mul_0_l, Z.add_0_l by lia.
  rewrite as_signed_mod by lia. cbn [bind]. do 2 f_equal. lia.
Qed.

Lemma parse_sb_encode_sb_minus_three :
  parse_sb (pack_bits ([true; false; true] ++ encode_sb 5 (-3) ++ [true]))
    3 5 = OK (-3, 3 + 5).
Proof.
  exact (parse_sb_encode_sb 5 (-3) [true; false; true] [true]
           ltac:(lia) ltac:(vm_compute; split; discriminate)).
Defined.

Example pack_bits_minus_three :
  pack_bits ([true; false; true] ++ encode_sb 5 (-3) ++ [true]) = [xbd; x80].
Proof. reflexivity. Qed.

(** ** Compressed files *)

(** C9: when the signature of the buffer declares zlib (['C','W','S']) or
    lzma (['Z','W','S']) compression and the eight bytes of fixed fields
    are there, [Header.parse] returns a header with that compression, the
    version byte and the 32-bit file length, without frame size, frame
    rate or frame count, and the position 64 just after the file length;
    the container holds that header and no tag sequence.  Neither result
    depends on the bytes after the first eight or on the fuel of the tag
    loop, which is not entered. *)
Theorem SWFData_compressed (sig1 ver b4 b5 b6 b7 : byte) (kind : string)
    (rest : list byte) (fuel : nat) :
  (sig1 = "C"%byte /\ kind = "zlib"%string) \/
  (sig1 = "Z"%byte /\ kind = "lzma"%string) ->
  let data := [sig1; "W"%byte; "S"%byte; ver; b4; b5; b6; b7] ++ rest in
  let header :=
    {| Header.signature := String (chr (byte_val sig1)) "WS";
       Header.compression := Some kind;
       Header.version := byte_val ver;
       Header.file_length := le_fold [b4; b5; b6; b7] 0 0;
       Header.frame_size := None;
       Header.frame_rate := None;
       Header.frame_count := None |} in
  parse_ui32 data 32 = OK (Header.file_length header, 64) /\
  Header.parse data 0 = OK (header, 64) /\
  SWFData.__init__ fuel data =
    Some (OK {| SWFData.header := header; SWFData.tags := None |}).
Proof.
  intros Hsig data header.
  assert (parse_ui32 data 32 = OK (Header.file_length header, 64)) as Hlen.
  { unfold parse_ui32. rewrite parse_uint_in_range;
      [ reflexivity | lia | reflexivity | lia | ].
    subst data. unfold len. rewrite length_app. cbn [List.length].
    change (32 / 8) with 4. lia. }
  assert (Header.__init__ (String (chr (byte_val sig1)) "WS") = OK (Some kind))
    as Hinit by (destruct Hsig as [[-> ->]|[-> ->]]; reflexivity).
  assert (Header.parse data 0 = OK (header, 64)) as Hparse.
  { unfold Header.parse. subst data. cbn [app].
    read_ui8 sig1. read_ui8 "W"%byte. read_ui8 "S"%byte.
    change (chr (byte_val "W")) with "W"%char.
    change (chr (byte_val "S")) with "S"%char.
    rewrite Hinit. cbn [bind]. read_ui8 ver.
    change (0 + 8 + 8 + 8 + 8) with 32.
    cbn [app] in Hlen. rewrite Hlen. reflexivity. }
  split; [exact Hlen|]. split; [exact Hparse|].
  unfold SWFData.__init__. rewrite Hparse. reflexivity.
Qed.

Lemma SWFData_compressed_zlib :
  SWFData.__init__ 0
    (["C"%byte; "W"%byte; "S"%byte; x0a; x10; x00; x00; x00] ++ [x78; x9c]) =
    Some (OK {| SWFData.header :=
                  {| Header.signature := "CWS";
                     Header.compression := Some "zlib"%string;
                     Header.version := 10;
                     Header.file_length := 16;
                     Header.frame_size := None;
                     Header.frame_rate := None;
                     Header.frame_count := None |};
                SWFData.tags := None |}).
Proof.
  exact (proj2 (proj2 (SWFData_compressed
                         "C"%byte x0a x10 x00 x00 x00 "zlib" [x78; x9c] 0%nat
                         (or_introl (conj eq_refl eq_refl))))).
Defined.

(** ** Termination of the tag loop *)

Lemma Tag_parse_advances data pos tag p :
  Tag.parse data pos = OK (tag, p) -> 0 <= pos /\ pos + 16 <= p.
Proof.
  rewrite parse_via_framing. intros H.
  destruct (Tag.framing data pos) as [[[ty L] pf]|e] eqn:Hf; [|discriminate].
  apply framing_OK in Hf as (H0 & Hpf & _ & HL & _).
  cbn [bind] in H. invert_do. lia.
Qed.

Lemma Tag_parse_negative data pos :
  pos < 0 -> exists e, Tag.parse data pos = Raise e.
Proof.
  intros Hneg. destruct (Tag.parse data pos) as [[tag p]|e] eqn:H; [|eauto].
  apply Tag_parse_advances in H. lia.
Qed.

(** The byte distance to the end of the buffer bounds the fuel needed. *)
Lemma tags_loop_enough_fuel data :
  forall (fuel : nat) (pos : Z) (tags : list Tag.t),
    (0 < fuel)%nat ->
    (0 <= pos -> (Z.to_nat (len data - pos / 8) < fuel)%nat) ->
    exists r, SWFData.tags_loop fuel data pos tags = Some r.
Proof.
  induction fuel as [|fuel IH]; intros pos tags Hfuel Hdist; [lia|].
  cbn [SWFData.tags_loop].
  destruct (Z.ltb_spec (pos / 8) (len data)) as [Hlt|Hge]; [|eauto].
  destruct (Tag.parse data pos) as [[tag p]|e] eqn:Hparse; [|eauto].
  apply Tag_parse_advances in Hparse as (H0 & Hadv).
  specialize (Hdist H0).
  apply IH; [|intros _]; euclid.
Qed.

Lemma tags_loop_more_fuel data :
  forall (fuel fuel' : nat) (pos : Z) (tags : list Tag.t) r,
    SWFData.tags_loop fuel data pos tags = Some r ->
    (fuel <= fuel')%nat ->
    SWFData.tags_loop fuel' data pos tags = Some r.
Proof.
  induction fuel as [|fuel IH]; intros fuel' pos tags r H Hle;
    [discriminate|].
  destruct fuel' as [|fuel']; [lia|].
  cbn [SWFData.tags_loop] in *.
  destruct (pos / 8 <? len data); [|exact H].
  destruct (Tag.parse data pos) as [[tag p]|e]; [|exact H].
  apply (IH fuel'); [exact H | lia].
Qed.

Lemma tags_loop_total data pos tags :
  exists r, forall fuel : nat,
    (List.length data < fuel)%nat ->
    SWFData.tags_loop fuel data pos tags = Some r.
Proof.
  destruct (tags_loop_enough_fuel data (S (List.length data)) pos tags)
    as [r Hr]; [lia | unfold len; intros; euclid |].
  exists r. intros fuel Hfuel.
  apply (tags_loop_more_fuel data (S (List.length data))); [exact Hr | lia].
Qed.

(** C10: every successful call of [Tag.parse] advances the position by
    at least the 16 bits of the framing, so the tag loop of the container
    terminates on every buffer: from any position, and for the whole of
    [SWFData.__init__], a fuel above the length of the buffer in bytes
    reaches the exit of the loop (or the exception that ends it), with
    one and the same result for every such fuel. *)
Theorem tags_loop_terminates (data : list byte) :
  (forall pos tag p,
     Tag.parse data pos = OK (tag, p) -> pos + 16 <= p) /\
  (forall pos tags, exists r, forall fuel : nat,
     (List.length data < fuel)%nat ->
     SWFData.tags_loop fuel data pos tags = Some r) /\
  (exists r, forall fuel : nat,
     (List.length data < fuel)%nat ->
     SWFData.__init__ fuel data = Some r).
Proof.
  split; [|split].
  - intros pos tag p H. apply Tag_parse_advances in H. lia.
  - apply tags_loop_total.
  - unfold SWFData.__init__.
    destruct (Header.parse data 0) as [[header pos]|e]; [|eauto].
    destruct (Header.compression header); [eauto|].
    destruct (tags_loop_total data pos []) as [r Hr].
    exists (match r with
            | OK tags =>
                OK {| SWFData.header := header; SWFData.tags := Some tags |}
            | Raise e => Raise e
            end).
    intros fuel Hfuel. rewrite (Hr fuel Hfuel). destruct r; reflexivity.
Qed.

Lemma tags_loop_terminates_end_tag : 0 + 16 <= 16.
Proof.
  exact (proj1 (tags_loop_terminates [x00; x00]) 0
           {| Tag.class := Tag.End; Tag.type_num := 0; Tag.length := 0;
              Tag.contents := Tag.Generic ([], 16) |} 16 eq_refl).
Defined.

(** A whole uncompressed file: header with a one-bit rectangle, frame
    rate 12.0, one frame, and the end tag. *)
Example SWFData_uncompressed_end_tag :
  SWFData.__init__ 17
    ["F"%byte; "W"%byte; "S"%byte; x06; x10; x00; x00; x00;
     x08; x00; x00; x0c; x01; x00; x00; x00] =
    Some (OK {| SWFData.header :=
                  {| Header.signature := "FWS";
                     Header.compression := None;
                     Header.version := 6;
                     Header.file_length := 16;
                     Header.frame_size :=
                       Some {| Rect.x_min := 0; Rect.x_max := 0;
                               Rect.y_min := 0; Rect.y_max := 0 |};
                     Header.frame_rate := Some (Qmake 3072 256);
                     Header.frame_count := Some 1 |};
                SWFData.tags :=
                  Some [ {| Tag.class := Tag.End; Tag.type_num := 0;
                            Tag.length := 0;
                            Tag.contents := Tag.Generic ([], 128) |} ] |}).
Proof. reflexivity. Qed.

(** * Further properties of the cursor and the primitive readers *)

(** ** [byte_align] *)

(** X1: [byte_align] raises [ValueError] on a negative position and
    otherwise returns the least multiple of 8 that is not below the
    position; an aligned position is returned unchanged. *)
Theorem byte_align_least_multiple (pos : Z) :
  (pos < 0 -> byte_align pos = Raise (ValueError (ExpectedPositive pos))) /\
  (0 <= pos ->
   exists r, byte_align pos = OK r /\ r mod 8 = 0 /\ pos <= r < pos + 8 /\
             (forall m, m mod 8 = 0 -> pos <= m -> r <= m) /\
             (pos mod 8 = 0 -> r = pos)).
Proof.
  unfold byte_align. split; intros H.
  - destruct (Z.ltb_spec pos 0); [reflexivity | lia].
  - destruct (Z.ltb_spec pos 0); [lia|].
    eexists. split; [reflexivity|].
    repeat split; try euclid. intros m Hm Hle. euclid.
Qed.

Lemma byte_align_least_multiple_13 :
  exists r, byte_align 13 = OK r /\ r mod 8 = 0 /\ 13 <= r < 13 + 8 /\
            (forall m, m mod 8 = 0 -> 13 <= m -> r <= m) /\
            (13 mod 8 = 0 -> r = 13).
Proof. exact (proj2 (byte_align_least_multiple 13) ltac:(lia)). Defined.

(** ** [get_bit] *)

Lemma land_shiftr_1 (v k : Z) :
  0 <= k -> Z.land (Z.shiftr v k) 1 = Z.b2z (Z.testbit v k).
Proof.
  intros Hk. rewrite Z.testbit_spec' by exact Hk.
  rewrite Z.shiftr_div_pow2 by exact Hk.
  change 1 with (Z.ones 1). rewrite Z.land_ones by lia. reflexivity.
Qed.

(** X2: inside the buffer [get_bit] returns bit [7 - pos mod 8] of byte
    [pos / 8], a value 0 or 1, and the next position; at a position at or
    past the end of the buffer it raises [IndexError]. *)
Theorem get_bit_in_buffer (data : list byte) (pos : Z) :
  (0 <= pos < 8 * len data ->
   exists b, data !! Z.to_nat (pos / 8) = Some b /\
             get_bit data pos =
               OK (Z.b2z (Z.testbit (byte_val b) (7 - pos mod 8)), pos + 1)) /\
  (8 * len data <= pos -> get_bit data pos = Raise IndexError).
Proof.
  split; intros Hpos.
  - destruct (getitem_in_range data (pos / 8)) as (b & Hb & Hget); [euclid|].
    exists b. split; [exact Hb|]. unfold get_bit. rewrite Hget. cbn [bind].
    rewrite land_shiftr_1 by euclid. reflexivity.
  - pose proof (len_nonneg data). unfold get_bit, getitem.
    destruct (Z.ltb_spec (pos / 8) 0) as [?|_]; [euclid|].
    destruct (Z.ltb_spec (pos / 8) 0) as [?|_]; [euclid|].
    destruct (Z.leb_spec (len data) (pos / 8)) as [_|?]; [|euclid].
    reflexivity.
Qed.

Lemma get_bit_in_buffer_bit_9 :
  exists b, [x00; x40] !! Z.to_nat (9 / 8) = Some b /\
            get_bit [x00; x40] 9 =
              OK (Z.b2z (Z.testbit (byte_val b) (7 - 9 mod 8)), 9 + 1).
Proof.
  exact (proj1 (get_bit_in_buffer [x00; x40] 9)
           ltac:(vm_compute; split; [discriminate | reflexivity])).
Defined.

Lemma getitem_negative data i :
  i < 0 -> 0 <= i + len data -> getitem data i = getitem data (i + len data).
Proof.
  intros Hneg Hin. unfold getitem.
  assert ((i <? 0) = true) as -> by lia.
  assert ((i + len data <? 0) = false) as E by lia.
  rewrite !E. reflexivity.
Qed.

Lemma getitem_below data i :
  i + len data < 0 -> getitem data i = Raise IndexError.
Proof.
  intros Hlow. pose proof (len_nonneg data). unfold getitem.
  destruct (Z.ltb_spec i 0) as [_|?]; [|lia].
  destruct (Z.ltb_spec (i + len data) 0) as [_|?]; [|lia]. reflexivity.
Qed.

(** X3: a negative position is not rejected by [get_bit]: down to
    [- 8 * len(data)] it reads the bit that lies [8 * len(data)] bits
    further, counted from the end of the buffer as Python's negative
    index does, and returns [pos + 1]; below that it raises
    [IndexError]. *)
Theorem get_bit_negative_position (data : list byte) (pos : Z) :
  (- (8 * len data) <= pos < 0 ->
   exists bit,
     get_bit data (pos + 8 * len data) = OK (bit, pos + 8 * len data + 1) /\
     get_bit data pos = OK (bit, pos + 1)) /\
  (pos < - (8 * len data) -> get_bit data pos = Raise IndexError).
Proof.
  split; intros Hpos.
  - destruct (getitem_in_range data (pos / 8 + len data)) as (b & Hb & Hget);
      [euclid|].
    exists (Z.land (Z.shiftr (byte_val b) (7 - pos mod 8)) 1).
    unfold get_bit.
    replace ((pos + 8 * len data) / 8) with (pos / 8 + len data) by euclid.
    replace ((pos + 8 * len data) mod 8) with (pos mod 8) by euclid.
    rewrite (getitem_negative data (pos / 8)) by euclid.
    rewrite Hget. split; reflexivity.
  - unfold get_bit. rewrite getitem_below by euclid. reflexivity.
Qed.

Lemma get_bit_negative_position_last_bit :
  exists bit,
    get_bit [x00; x01] (-1 + 8 * len [x00; x01]) =
      OK (bit, -1 + 8 * len [x00; x01] + 1) /\
    get_bit [x00; x01] (-1) = OK (bit, -1 + 1).
Proof.
  exact (proj1 (get_bit_negative_position [x00; x01] (-1))
           ltac:(vm_compute; split; [discriminate | reflexivity])).
Defined.

(** ** [get_byte] and [parse_bytes] *)

(** X4: [get_byte] checks the alignment before it touches the buffer: a
    position that is not a multiple of 8 raises [ValueError] wherever it
    lies; an aligned position inside the buffer gives the value of the
    byte there, between 0 and 255, and the position 8 bits on; an aligned
    position at or past the end raises [IndexError]. *)
Theorem get_byte_cases (data : list byte) (pos : Z) :
  (pos mod 8 <> 0 ->
   get_byte data pos = Raise (ValueError (NotByteAligned pos))) /\
  (pos mod 8 = 0 -> 0 <= pos -> pos / 8 < len data ->
   exists b, data !! Z.to_nat (pos / 8) = Some b /\
             get_byte data pos = OK (byte_val b, pos + 8) /\
             0 <= byte_val b < 256) /\
  (pos mod 8 = 0 -> len data <= pos / 8 ->
   get_byte data pos = Raise IndexError).
Proof.
  split; [|split].
  - intros Hne. unfold get_byte, _check_byte_alignment.
    destruct (Z.eqb_spec (pos mod 8) 0); [contradiction | reflexivity].
  - intros H8 H0 Hlt.
    destruct (getitem_in_range data (pos / 8)) as (b & Hb & _); [euclid|].
    exists b. split; [exact Hb|]. split; [|apply byte_val_range].
    apply get_byte_lookup; assumption.
  - intros H8 Hge. pose proof (len_nonneg data).
    unfold get_byte. rewrite check_aligned by exact H8. cbn [bind].
    unfold getitem.
    destruct (Z.ltb_spec (pos / 8) 0) as [?|_]; [lia|].
    destruct (Z.ltb_spec (pos / 8) 0) as [?|_]; [lia|].
    destruct (Z.leb_spec (len data) (pos / 8)) as [_|?]; [|lia].
    reflexivity.
Qed.

Lemma get_byte_cases_misaligned :
  get_byte [x01] 803 = Raise (ValueError (NotByteAligned 803)).
Proof.
  exact (proj1 (get_byte_cases [x01] 803) ltac:(vm_compute; discriminate)).
Defined.

(** X5: two consecutive [parse_bytes] reads are one read of the summed
    length: at a non-negative aligned position, [n] bytes and then [m]
    bytes from the position returned give the bytes and the position of a
    single read of [n + m] bytes, also when the buffer ends early. *)
Theorem parse_bytes_consecutive (data : list byte) (p n m : Z)
    (first second : list byte) (p1 p2 : Z) :
  p mod 8 = 0 -> 0 <= p -> 0 <= n -> 0 <= m ->
  parse_bytes data p n = OK (first, p1) ->
  parse_bytes data p1 m = OK (second, p2) ->
  parse_bytes data p (n + m) = OK (first ++ second, p2).
Proof.
  intros H8 H0 Hn Hm H1 H2.
  rewrite parse_bytes_aligned, getslice_nonneg in H1 by euclid.
  injection H1 as <- <-.
  rewrite parse_bytes_aligned, getslice_nonneg in H2 by euclid.
  injection H2 as <- <-.
  rewrite parse_bytes_aligned, getslice_nonneg by euclid.
  f_equal. f_equal; [|lia].
  replace (Z.to_nat ((p + 8 * n) / 8)) with (Z.to_nat (p / 8) + Z.to_nat n)%nat
    by euclid.
  rewrite <- drop_drop, take_take_drop. f_equal. lia.
Qed.

Lemma parse_bytes_consecutive_2_3 :
  parse_bytes [x00; x01; x02; x03; x04; x05] 8 (2 + 3) =
    OK ([x01; x02] ++ [x03; x04; x05], 48).
Proof.
  exact (parse_bytes_consecutive [x00; x01; x02; x03; x04; x05] 8 2 3
           [x01; x02] [x03; x04; x05] 24 48
           eq_refl ltac:(lia) ltac:(lia) ltac:(lia) eq_refl eq_refl).
Defined.

(** ** [parse_ub] *)

Lemma get_bit_OK data pos bit p :
  get_bit data pos = OK (bit, p) -> p = pos + 1 /\ 0 <= bit <= 1.
Proof.
  unfold get_bit. intros H.
  destruct (getitem data (pos / 8)) as [v|e]; [|discriminate].
  cbn [bind] in H. injection H as <- <-. split; [reflexivity|].
  rewrite land_shiftr_1 by euclid.
  destruct (Z.testbit v (7 - pos mod 8)); cbn [Z.b2z]; lia.
Qed.

Lemma get_bit_inside data pos :
  0 <= pos < 8 * len data -> exists bit, get_bit data pos = OK (bit, pos + 1).
Proof.
  intros Hpos.
  destruct (getitem_in_range data (pos / 8)) as (b & _ & Hget); [euclid|].
  unfold get_bit. rewrite Hget. cbn [bind]. eauto.
Qed.

Lemma getitem_beyond data i :
  len data <= i -> getitem data i = Raise IndexError.
Proof.
  intros Hge. pose proof (len_nonneg data). unfold getitem.
  assert ((i <? 0) = false) as E by lia. rewrite !E.
  assert ((len data <=? i) = true) as -> by lia. reflexivity.
Qed.

Lemma get_bit_beyond data pos :
  8 * len data <= pos -> get_bit data pos = Raise IndexError.
Proof.
  intros Hpos. unfold get_bit. rewrite getitem_beyond by euclid. reflexivity.
Qed.

Lemma parse_ub_loop_OK data (n : nat) :
  forall acc pos v p,
    parse_ub_loop data n acc pos = OK (v, p) ->
    p = pos + Z.of_nat n /\
    acc * 2 ^ Z.of_nat n <= v < (acc + 1) * 2 ^ Z.of_nat n.
Proof.
  induction n as [|n IH]; intros acc pos v p H.
  - cbn [parse_ub_loop] in H. injection H as <- <-.
    change (2 ^ Z.of_nat 0) with 1. lia.
  - cbn [parse_ub_loop] in H.
    destruct (get_bit data pos) as [[bit p1]|e] eqn:Hbit; [|discriminate].
    cbn [bind] in H. apply get_bit_OK in Hbit as (-> & Hb).
    apply IH in H as (-> & Hv).
    replace (Z.of_nat (S n)) with (Z.of_nat n + 1) by lia.
    rewrite Z.pow_add_r by lia. change (2 ^ 1) with 2.
    assert (0 < 2 ^ Z.of_nat n) by (apply Z.pow_pos_nonneg; lia).
    split; [lia|]. nia.
Qed.

(** X6: a value returned by [parse_ub] for a width [n] lies in
    [0 .. 2^n - 1] and the position has advanced by exactly [n] bits; a
    width that is zero or negative reads nothing and gives 0 at the same
    position. *)
Theorem parse_ub_range (data : list byte) (pos n v p : Z) :
  parse_ub data pos n = OK (v, p) ->
  0 <= v < 2 ^ Z.max 0 n /\ p = pos + Z.max 0 n /\
  (n <= 0 -> v = 0).
Proof.
  unfold parse_ub. intros H. apply parse_ub_loop_OK in H as (-> & Hv).
  replace (Z.of_nat (Z.to_nat n)) with (Z.max 0 n) in * by lia.
  split; [lia|]. split; [reflexivity|].
  intros Hn. rewrite Z.max_l in Hv by lia. change (2 ^ 0) with 1 in Hv. lia.
Qed.

Lemma parse_ub_range_three_bits :
  0 <= 5 < 2 ^ Z.max 0 3 /\ 3 = 0 + Z.max 0 3 /\ (3 <= 0 -> 5 = 0).
Proof. exact (parse_ub_range [xa0] 0 3 5 3 eq_refl). Defined.

Lemma parse_ub_loop_inside data (n : nat) :
  forall acc pos,
    0 <= pos -> pos + Z.of_nat n <= 8 * len data ->
    exists v, parse_ub_loop data n acc pos = OK (v, pos + Z.of_nat n).
Proof.
  induction n as [|n IH]; intros acc pos H0 Hfit.
  - exists acc. cbn [parse_ub_loop]. do 2 f_equal. lia.
  - destruct (get_bit_inside data pos) as [bit Hbit]; [lia|].
    destruct (IH (2 * acc + bit) (pos + 1)) as [v Hv]; [lia | lia |].
    exists v. cbn [parse_ub_loop]. rewrite Hbit. cbn [bind]. rewrite Hv.
    do 2 f_equal. lia.
Qed.

Lemma parse_ub_loop_beyond data (n : nat) :
  forall acc pos,
    0 <= pos -> 8 * len data < pos + Z.of_nat (S n) ->
    parse_ub_loop data (S n) acc pos = Raise IndexError.
Proof.
  induction n as [|n IH]; intros acc pos H0 Hover.
  - cbn [parse_ub_loop]. rewrite get_bit_beyond by lia. reflexivity.
  - change (parse_ub_loop data (S (S n)) acc pos)
      with (do (bit, pos) <- get_bit data pos;
            parse_ub_loop data (S n) (2 * acc + bit) pos).
    destruct (Z.le_gt_cases (8 * len data) pos) as [Hout|Hin].
    + rewrite get_bit_beyond by exact Hout. reflexivity.
    + destruct (get_bit_inside data pos) as [bit Hbit]; [lia|].
      rewrite Hbit. cbn [bind]. apply IH; lia.
Qed.

(** X7: from a non-negative position, [parse_ub] of a positive width
    succeeds exactly when all its bits lie inside the buffer, and raises
    [IndexError] when the field runs past the end of the buffer; a width
    of zero succeeds at every position, also past the end. *)
Theorem parse_ub_inside_or_IndexError (data : list byte) (pos n : Z) :
  0 <= pos ->
  (0 <= n -> pos + n <= 8 * len data ->
   exists v, parse_ub data pos n = OK (v, pos + n)) /\
  (0 < n -> 8 * len data < pos + n -> parse_ub data pos n = Raise IndexError) /\
  (n <= 0 -> parse_ub data pos n = OK (0, pos)).
Proof.
  intros H0. unfold parse_ub. split; [|split].
  - intros Hn Hfit.
    destruct (parse_ub_loop_inside data (Z.to_nat n) 0 pos) as [v Hv];
      [lia | lia |].
    exists v. rewrite Hv. do 2 f_equal. lia.
  - intros Hn Hover.
    replace (Z.to_nat n) with (S (Z.to_nat (n - 1))) by lia.
    apply parse_ub_loop_beyond; lia.
  - intros Hn. replace (Z.to_nat n) with 0%nat by lia. reflexivity.
Qed.

Lemma parse_ub_inside_or_IndexError_crossing :
  parse_ub [xff] 6 3 = Raise IndexError.
Proof.
  exact (proj1 (proj2 (parse_ub_inside_or_IndexError [xff] 6 3 ltac:(lia)))
           ltac:(lia) ltac:(vm_compute; reflexivity)).
Defined.

Lemma parse_ub_loop_from_zero data (m : nat) :
  forall acc pos,
    parse_ub_loop data m acc pos =
      do (b, p) <- parse_ub_loop data m 0 pos;
      OK (acc * 2 ^ Z.of_nat m + b, p).
Proof.
  induction m as [|m IH]; intros acc pos.
  - cbn [parse_ub_loop bind]. change (2 ^ Z.of_nat 0) with 1.
    do 2 f_equal. lia.
  - cbn [parse_ub_loop].
    destruct (get_bit data pos) as [[bit p1]|e]; [|reflexivity].
    cbn [bind]. rewrite (IH (2 * acc + bit)), (IH (2 * 0 + bit)).
    destruct (parse_ub_loop data m 0 p1) as [[b p]|e]; [|reflexivity].
    cbn [bind]. do 2 f_equal.
    replace (Z.of_nat (S m)) with (Z.of_nat m + 1) by lia.
    rewrite Z.pow_add_r by lia. change (2 ^ 1) with 2. lia.
Qed.

Lemma parse_ub_loop_app data (n m : nat) :
  forall acc pos,
    parse_ub_loop data (n + m) acc pos =
      do (a, p) <- parse_ub_loop data n acc pos;
      parse_ub_loop data m a p.
Proof.
  induction n as [|n IH]; intros acc pos; [reflexivity|].
  cbn [Nat.add parse_ub_loop].
  destruct (get_bit data pos) as [[bit p1]|e]; [|reflexivity].
  cbn [bind]. apply IH.
Qed.

(** X8: bit fields are read most significant bit first, so a field of
    [n + m] bits is a field of [n] bits followed by one of [m] bits: the
    value is the first times [2^m] plus the second, and a failure of
    either read is the failure of the whole. *)
Theorem parse_ub_split (data : list byte) (pos n m : Z) :
  0 <= n -> 0 <= m ->
  parse_ub data pos (n + m) =
    do (a, p) <- parse_ub data pos n;
    do (b, p') <- parse_ub data p m;
    OK (a * 2 ^ m + b, p').
Proof.
  intros Hn Hm. unfold parse_ub.
  replace (Z.to_nat (n + m)) with (Z.to_nat n + Z.to_nat m)%nat by lia.
  rewrite parse_ub_loop_app.
  destruct (parse_ub_loop data (Z.to_nat n) 0 pos) as [[a p]|e];
    [|reflexivity].
  cbn [bind]. rewrite parse_ub_loop_from_zero.
  rewrite Z2Nat.id by exact Hm. reflexivity.
Qed.

Lemma parse_ub_split_5_3 :
  parse_ub [xa7] 0 (5 + 3) =
    do (a, p) <- parse_ub [xa7] 0 5;
    do (b, p') <- parse_ub [xa7] p 3;
    OK (a * 2 ^ 3 + b, p').
Proof. exact (parse_ub_split [xa7] 0 5 3 ltac:(lia) ltac:(lia)). Defined.

Lemma bits_fold_whole_byte (b : byte) : bits_fold (byte_val b) 8 0 0 = byte_val b.
Proof. destruct b; reflexivity. Qed.

(** X9: at a non-negative byte-aligned position the bit reader and the
    byte reader agree: eight bits read by [parse_ub] are the byte that
    [parse_ui8] reads, with the same position, and past the end of the
    buffer both raise [IndexError]. *)
Theorem parse_ub_8_is_parse_ui8 (data : list byte) (pos : Z) :
  0 <= pos -> pos mod 8 = 0 ->
  parse_ub data pos 8 = parse_ui8 data pos.
Proof.
  intros H0 H8.
  destruct (Z.le_gt_cases (len data) (pos / 8)) as [Hout|Hin].
  - unfold parse_ub. change (Z.to_nat 8) with 8%nat.
    rewrite parse_ub_loop_beyond by euclid.
    unfold parse_ui8, parse_uint. rewrite byte_align_aligned by assumption.
    cbn [bind]. change (Z.to_nat 1) with 1%nat. cbn [parse_uint_loop].
    unfold get_byte. rewrite check_aligned by exact H8. cbn [bind].
    rewrite getitem_beyond by exact Hout. reflexivity.
  - destruct (getitem_in_range data (pos / 8)) as (b & Hb & _); [euclid|].
    rewrite (parse_ui8_at _ _ _ H0 H8 Hb).
    replace pos with (pos + 0) at 1 by lia.
    rewrite (parse_ub_in_byte _ _ _ H0 H8 Hb 0 8) by lia.
    change (Z.to_nat 8) with 8%nat. rewrite bits_fold_whole_byte.
    do 2 f_equal.
Qed.

Lemma parse_ub_8_is_parse_ui8_second_byte :
  parse_ub [x12; x34] 8 8 = parse_ui8 [x12; x34] 8.
Proof.
  exact (parse_ub_8_is_parse_ui8 [x12; x34] 8 ltac:(lia) eq_refl).
Defined.

(** ** [as_signed] and [parse_sb] *)

Lemma as_signed_cases (num n : Z) :
  (n <= 0 -> as_signed num n = Raise (ValueError NegativeShiftCount)) /\
  (1 <= n -> 0 <= num < 2 ^ n ->
   exists r, as_signed num n = OK r /\
             - 2 ^ (n - 1) <= r < 2 ^ (n - 1) /\ r mod 2 ^ n = num /\
             (num < 2 ^ (n - 1) -> r = num) /\
             (2 ^ (n - 1) <= num -> r = num - 2 ^ n)).
Proof.
  split.
  - intros Hn. unfold as_signed, lshift.
    destruct (Z.ltb_spec (n - 1) 0) as [_|?]; [reflexivity | lia].
  - intros Hn Hnum.
    assert (0 < 2 ^ (n - 1)) as Hpos by (apply Z.pow_pos_nonneg; lia).
    assert (2 ^ n = 2 * 2 ^ (n - 1)) as Hpow.
    { replace n with (n - 1 + 1) at 1 by lia.
      rewrite Z.pow_add_r by lia. change (2 ^ 1) with 2. lia. }
    unfold as_signed, lshift.
    destruct (Z.ltb_spec (n - 1) 0) as [?|_]; [lia|]. cbn [bind].
    destruct (Z.ltb_spec n 0) as [?|_]; [lia|].
    rewrite !Z.shiftl_1_l, land_pow2 by lia.
    rewrite testbit_top; [ | lia | replace (n - 1 + 1) with n by lia; lia ].
    destruct (Z.leb_spec (2 ^ (n - 1)) num) as [Hhigh|Hlow].
    + destruct (Z.eqb_spec (2 ^ (n - 1)) 0) as [?|_]; [lia|].
      cbn [negb bind]. eexists. split; [reflexivity|].
      split; [lia|]. split; [|split; intros; lia].
      symmetry. apply (Z.mod_unique (num - 2 ^ n) (2 ^ n) (-1)); lia.
    + cbn [Z.eqb negb]. eexists. split; [reflexivity|].
      split; [lia|]. split; [|split; intros; lia].
      apply Z.mod_small. lia.
Qed.


(** X10: on a bit pattern [num] of [n >= 1] bits (that is,
    [0 <= num < 2^n]) [as_signed] returns the two's-complement reading:
    [num] itself below [2^(n-1)] and [num - 2^n] from there on, a value
    of [-2^(n-1) .. 2^(n-1) - 1] congruent to [num] modulo [2^n]; with
    [n <= 0] it raises [ValueError] whatever [num] is. *)
Theorem as_signed_twos_complement (num n : Z) :
  (n <= 0 -> as_signed num n = Raise (ValueError NegativeShiftCount)) /\
  (1 <= n -> 0 <= num < 2 ^ n ->
   exists r, as_signed num n = OK r /\
             - 2 ^ (n - 1) <= r < 2 ^ (n - 1) /\ r mod 2 ^ n = num /\
             (num < 2 ^ (n - 1) -> r = num) /\
             (2 ^ (n - 1) <= num -> r = num - 2 ^ n)).
Proof. exact (as_signed_cases num n). Qed.

Lemma as_signed_twos_complement_0xf8 :
  exists r, as_signed 248 8 = OK r /\
            - 2 ^ (8 - 1) <= r < 2 ^ (8 - 1) /\ r mod 2 ^ 8 = 248 /\
            (248 < 2 ^ (8 - 1) -> r = 248) /\
            (2 ^ (8 - 1) <= 248 -> r = 248 - 2 ^ 8).
Proof.
  exact (proj2 (as_signed_twos_complement 248 8) ltac:(lia)
           ltac:(vm_compute; split; [discriminate | reflexivity])).
Defined.

Lemma parse_sb_OK data pos n v p :
  parse_sb data pos n = OK (v, p) ->
  1 <= n /\ p = pos + n /\ - 2 ^ (n - 1) <= v < 2 ^ (n - 1) /\
  exists u, parse_ub data pos n = OK (u, p) /\ v mod 2 ^ n = u.
Proof.
  intros H. unfold parse_sb in H.
  destruct (parse_ub data pos n) as [[u p1]|e] eqn:Hub; [|discriminate].
  cbn [bind] in H.
  destruct (Z.le_gt_cases n 0) as [Hn|Hn].
  { rewrite (proj1 (as_signed_cases u n) Hn) in H. discriminate. }
  apply parse_ub_loop_OK in Hub as Hu. destruct Hu as (-> & Hu).
  rewrite Z2Nat.id in Hu by lia.
  destruct (proj2 (as_signed_cases u n)) as (r & Hr & Hrange & Hmod & _);
    [lia | lia |].
  rewrite Hr in H. cbn [bind] in H. injection H as <- <-.
  rewrite Z2Nat.id by lia. repeat split; try lia. eauto.
Qed.

Lemma parse_sb_nonpositive_width data pos n :
  n <= 0 -> parse_sb data pos n = Raise (ValueError NegativeShiftCount).
Proof.
  intros Hn. unfold parse_sb, parse_ub.
  replace (Z.to_nat n) with 0%nat by lia. cbn [parse_ub_loop bind].
  rewrite (proj1 (as_signed_cases 0 n) Hn). reflexivity.
Qed.

(** X11: [parse_sb] returns only for a width [n >= 1]; the value then
    lies in [-2^(n-1) .. 2^(n-1) - 1], it is congruent modulo [2^n] to
    the unsigned field [parse_ub] reads at the same place, and the
    position has advanced by [n] bits.  For every width [n <= 0] it
    raises [ValueError], wherever the position is. *)
Theorem parse_sb_range (data : list byte) (pos n : Z) :
  (forall v p,
     parse_sb data pos n = OK (v, p) ->
     1 <= n /\ p = pos + n /\ - 2 ^ (n - 1) <= v < 2 ^ (n - 1) /\
     exists u, parse_ub data pos n = OK (u, p) /\ v mod 2 ^ n = u) /\
  (n <= 0 -> parse_sb data pos n = Raise (ValueError NegativeShiftCount)).
Proof.
  split.
  - intros v p. apply parse_sb_OK.
  - apply parse_sb_nonpositive_width.
Qed.

Lemma parse_sb_range_negative_width :
  parse_sb [xff] 3 (-2) = Raise (ValueError NegativeShiftCount).
Proof. exact (proj2 (parse_sb_range [xff] 3 (-2)) ltac:(lia)). Defined.

(** ** Byte-aligned integers *)

Lemma lor_shiftl_add (a b k : Z) :
  0 <= k -> 0 <= a < 2 ^ k -> Z.lor a (Z.shiftl b k) = a + b * 2 ^ k.
Proof.
  intros Hk Ha. rewrite Z.shiftl_mul_pow2 by exact Hk.
  symmetry. apply Z.add_nocarry_lor. apply Z.bits_inj'. intros i Hi.
  rewrite Z.land_spec, Z.bits_0.
  destruct (Z.lt_ge_cases i k) as [Hlt|Hge].
  - rewrite Z.mul_pow2_bits_low by exact Hlt. apply andb_false_r.
  - rewrite (proj1 (Z.bounded_iff_bits_nonneg k a Hk (proj1 Ha)) (proj2 Ha) i Hge).
    reflexivity.
Qed.

Lemma le_value_bound (bs : list byte) :
  0 <= le_value bs < 2 ^ (8 * Z.of_nat (List.length bs)).
Proof.
  induction bs as [|b bs IH]; [cbn; lia|].
  cbn [le_value List.length]. pose proof (byte_val_range b).
  replace (8 * Z.of_nat (S (List.length bs)))
    with (8 + 8 * Z.of_nat (List.length bs)) by lia.
  rewrite Z.pow_add_r by lia. change (2 ^ 8) with 256. lia.
Qed.

Lemma le_fold_value (bs : list byte) :
  forall i acc,
    0 <= i -> 0 <= acc < 2 ^ (8 * i) ->
    le_fold bs i acc = acc + 2 ^ (8 * i) * le_value bs.
Proof.
  induction bs as [|b bs IH]; intros i acc Hi Hacc; cbn [le_fold le_value].
  - lia.
  - pose proof (byte_val_range b).
    assert (2 ^ (8 * (i + 1)) = 256 * 2 ^ (8 * i)) as Hpow.
    { replace (8 * (i + 1)) with (8 + 8 * i) by lia.
      rewrite Z.pow_add_r by lia. reflexivity. }
    rewrite lor_shiftl_add by lia. rewrite IH; [ | lia | nia ].
    rewrite Hpow. lia.
Qed.

Lemma le_fold_le_value (bs : list byte) : le_fold bs 0 0 = le_value bs.
Proof.
  rewrite le_fold_value by (change (2 ^ (8 * 0)) with 1; lia).
  change (2 ^ (8 * 0)) with 1. lia.
Qed.

Lemma parse_uint_bytes data pos n :
  0 <= pos -> 0 <= n -> (pos + 7) / 8 + n <= len data ->
  parse_uint data pos n =
    OK (le_value (take (Z.to_nat n) (drop (Z.to_nat ((pos + 7) / 8)) data)),
        8 * ((pos + 7) / 8 + n)).
Proof.
  intros H0 Hn Hfit. unfold parse_uint, byte_align.
  destruct (Z.ltb_spec pos 0) as [?|_]; [lia|]. cbn [bind].
  rewrite parse_uint_loop_in_range; [ | euclid | euclid | euclid ].
  rewrite le_fold_le_value.
  replace ((pos + 7) / 8 * 8 / 8) with ((pos + 7) / 8) by euclid.
  do 2 f_equal. lia.
Qed.

(** X12: [parse_uint] first moves an unaligned position up to the next
    byte boundary, without error, and then reads [n] bytes as a
    little-endian number: the first byte is the least significant base-256
    digit.  The value lies in [0 .. 2^(8n) - 1] and the position returned
    is the end of the last byte read. *)
Theorem parse_uint_little_endian (data : list byte) (pos n : Z) :
  0 <= pos -> 0 <= n -> (pos + 7) / 8 + n <= len data ->
  let bytes := take (Z.to_nat n) (drop (Z.to_nat ((pos + 7) / 8)) data) in
  parse_uint data pos n = OK (le_value bytes, 8 * ((pos + 7) / 8 + n)) /\
  len bytes = n /\ 0 <= le_value bytes < 2 ^ (8 * n).
Proof.
  intros H0 Hn Hfit bytes. split; [apply parse_uint_bytes; assumption|].
  assert (len bytes = n) as Hlen.
  { subst bytes. unfold len in *. rewrite length_take_drop. euclid. }
  split; [exact Hlen|]. rewrite <- Hlen. apply le_value_bound.
Qed.

Lemma parse_uint_little_endian_0x0201 :
  parse_uint [xff; x01; x02] 3 2 = OK (0x0201, 24).
Proof.
  exact (proj1 (parse_uint_little_endian [xff; x01; x02] 3 2
                  ltac:(lia) ltac:(lia) ltac:(vm_compute; discriminate))).
Defined.

Lemma parse_uint_loop_beyond data (n : nat) :
  forall i acc pos,
    0 <= pos -> pos mod 8 = 0 -> len data < pos / 8 + Z.of_nat (S n) ->
    parse_uint_loop data (S n) i acc pos = Raise IndexError.
Proof.
  induction n as [|n IH]; intros i acc pos H0 H8 Hover.
  - cbn [parse_uint_loop]. unfold get_byte.
    rewrite check_aligned by exact H8. cbn [bind].
    rewrite getitem_beyond by lia. reflexivity.
  - change (parse_uint_loop data (S (S n)) i acc pos)
      with (do (byte, pos) <- get_byte data pos;
            parse_uint_loop data (S n) (i + 1)
              (Z.lor acc (Z.shiftl byte (8 * i))) pos).
    destruct (Z.le_gt_cases (len data) (pos / 8)) as [Hout|Hin].
    + unfold get_byte. rewrite check_aligned by exact H8. cbn [bind].
      rewrite getitem_beyond by exact Hout. reflexivity.
    + destruct (getitem_in_range data (pos / 8)) as (b & Hb & _); [euclid|].
      rewrite (get_byte_lookup _ _ _ H0 H8 Hb). cbn [bind].
      apply IH; euclid.
Qed.

Lemma parse_uint_fail_cases (data : list byte) (pos n : Z) :
  (pos < 0 ->
   parse_uint data pos n = Raise (ValueError (ExpectedPositive pos))) /\
  (0 <= pos -> 0 < n -> len data < (pos + 7) / 8 + n ->
   parse_uint data pos n = Raise IndexError) /\
  (0 <= pos -> n <= 0 -> parse_uint data pos n = OK (0, (pos + 7) / 8 * 8)).
Proof.
  unfold parse_uint, byte_align. split; [|split].
  - intros Hneg. destruct (Z.ltb_spec pos 0); [reflexivity | lia].
  - intros H0 Hn Hover. destruct (Z.ltb_spec pos 0) as [?|_]; [lia|].
    cbn [bind]. replace (Z.to_nat n) with (S (Z.to_nat (n - 1))) by lia.
    apply parse_uint_loop_beyond; euclid.
  - intros H0 Hn. destruct (Z.ltb_spec pos 0) as [?|_]; [lia|].
    replace (Z.to_nat n) with 0%nat by lia. reflexivity.
Qed.

(** X13: the failures of [parse_uint]: a negative position raises
    [ValueError]; from a non-negative position, a read of [n > 0] bytes
    that does not fit between the next byte boundary and the end of the
    buffer raises [IndexError]; and a read of no bytes ([n <= 0]) always
    succeeds with the value 0, still moving the position up to the byte
    boundary. *)
Theorem parse_uint_failures (data : list byte) (pos n : Z) :
  (pos < 0 ->
   parse_uint data pos n = Raise (ValueError (ExpectedPositive pos))) /\
  (0 <= pos -> 0 < n -> len data < (pos + 7) / 8 + n ->
   parse_uint data pos n = Raise IndexError) /\
  (0 <= pos -> n <= 0 -> parse_uint data pos n = OK (0, (pos + 7) / 8 * 8)).
Proof. exact (parse_uint_fail_cases data pos n). Qed.

Lemma parse_uint_failures_short_buffer :
  parse_uint [x01; x02; x03] 0 4 = Raise IndexError.
Proof.
  exact (proj1 (proj2 (parse_uint_failures [x01; x02; x03] 0 4))
           ltac:(lia) ltac:(lia) ltac:(vm_compute; reflexivity)).
Defined.

Lemma parse_uint_OK_bound data pos n v p :
  0 <= n -> parse_uint data pos n = OK (v, p) -> 0 <= v < 2 ^ (8 * n).
Proof.
  intros Hn H. destruct (Z.eq_dec n 0) as [->|Hne].
  - unfold parse_uint in H. change (Z.to_nat 0) with 0%nat in H.
    destruct (byte_align pos); [|discriminate].
    cbn [bind parse_uint_loop] in H. injection H as <- <-.
    change (2 ^ (8 * 0)) with 1. lia.
  - destruct (Z.le_gt_cases ((pos + 7) / 8 + n) (len data)) as [Hfit|Hover].
    + pose proof H as H'. apply parse_uint_OK in H' as (H0 & _).
      rewrite (parse_uint_bytes data pos n H0 Hn Hfit) in H.
      injection H as <- <-.
      pose proof (le_value_bound
                    (take (Z.to_nat n)
                       (drop (Z.to_nat ((pos + 7) / 8)) data))) as Hb.
      rewrite length_take_drop in Hb.
      replace (Z.of_nat (Nat.min (Z.to_nat n)
                           (List.length data - Z.to_nat ((pos + 7) / 8))))
        with n in Hb by (unfold len in *; euclid).
      exact Hb.
    + pose proof H as H'. apply parse_uint_OK in H' as (H0 & _).
      unfold parse_uint, byte_align in H.
      destruct (Z.ltb_spec pos 0) as [?|_]; [lia|]. cbn [bind] in H.
      replace (Z.to_nat n) with (S (Z.to_nat (n - 1))) in H by lia.
      rewrite parse_uint_loop_beyond in H by euclid. discriminate.
Qed.

Lemma as_signed_of_unsigned (u n : Z) :
  1 <= n -> 0 <= u < 2 ^ n ->
  as_signed u n = OK (if u <? 2 ^ (n - 1) then u else u - 2 ^ n).
Proof.
  intros Hn Hu.
  destruct (proj2 (as_signed_cases u n) Hn Hu) as (r & -> & _ & _ & Hlow & Hhigh).
  destruct (Z.ltb_spec u (2 ^ (n - 1))); f_equal; auto.
Qed.

Lemma parse_si_cases (data : list byte) (pos : Z) :
  parse_si8 data pos =
    (do (u, p) <- parse_ui8 data pos;
     OK (if u <? 2 ^ 7 then u else u - 2 ^ 8, p)) /\
  parse_si16 data pos =
    (do (u, p) <- parse_ui16 data pos;
     OK (if u <? 2 ^ 15 then u else u - 2 ^ 16, p)) /\
  parse_si32 data pos =
    (do (u, p) <- parse_ui32 data pos;
     OK (if u <? 2 ^ 31 then u else u - 2 ^ 32, p)).
Proof.
  unfold parse_si8, parse_si16, parse_si32, parse_ui8, parse_ui16, parse_ui32.
  repeat split.
  - destruct (parse_uint data pos 1) as [[u p]|e] eqn:H; [|reflexivity].
    apply parse_uint_OK_bound in H; [|lia]. cbn [bind].
    rewrite as_signed_of_unsigned by (try exact H; lia). reflexivity.
  - destruct (parse_uint data pos 2) as [[u p]|e] eqn:H; [|reflexivity].
    apply parse_uint_OK_bound in H; [|lia]. cbn [bind].
    rewrite as_signed_of_unsigned by (try exact H; lia). reflexivity.
  - destruct (parse_uint data pos 4) as [[u p]|e] eqn:H; [|reflexivity].
    apply parse_uint_OK_bound in H; [|lia]. cbn [bind].
    rewrite as_signed_of_unsigned by (try exact H; lia). reflexivity.
Qed.

(** X14: the signed integer readers are the unsigned ones followed by
    the two's-complement reading at their own width: each one fails
    exactly when its unsigned reader fails, with the same exception, and
    otherwise returns the unsigned value if it is below [2^(w-1)] and the
    unsigned value minus [2^w] if not, at the same position. *)
Theorem parse_si_twos_complement (data : list byte) (pos : Z) :
  parse_si8 data pos =
    (do (u, p) <- parse_ui8 data pos;
     OK (if u <? 2 ^ 7 then u else u - 2 ^ 8, p)) /\
  parse_si16 data pos =
    (do (u, p) <- parse_ui16 data pos;
     OK (if u <? 2 ^ 15 then u else u - 2 ^ 16, p)) /\
  parse_si32 data pos =
    (do (u, p) <- parse_ui32 data pos;
     OK (if u <? 2 ^ 31 then u else u - 2 ^ 32, p)).
Proof. exact (parse_si_cases data pos). Qed.

Lemma parse_ub_byte data pos b :
  0 <= pos -> pos mod 8 = 0 -> data !! Z.to_nat (pos / 8) = Some b ->
  parse_ub data pos 8 = OK (byte_val b, pos + 8).
Proof.
  intros H0 H8 Hb. replace pos with (pos + 0) at 1 by lia.
  rewrite (parse_ub_in_byte _ _ _ H0 H8 Hb 0 8) by lia.
  change (Z.to_nat 8) with 8%nat. rewrite bits_fold_whole_byte.
  do 2 f_equal.
Qed.

(** X15: the two readers order bytes in opposite ways.  Over the same two
    bytes [b0], [b1] at a byte-aligned position, the 16-bit bit field of
    [parse_ub] is [256 * b0 + b1] (first byte most significant) and the
    integer of [parse_ui16] is [b0 + 256 * b1] (first byte least
    significant); both advance by 16 bits. *)
Theorem parse_ub_16_vs_parse_ui16 (data : list byte) (pos : Z) (b0 b1 : byte) :
  0 <= pos -> pos mod 8 = 0 ->
  data !! Z.to_nat (pos / 8) = Some b0 ->
  data !! S (Z.to_nat (pos / 8)) = Some b1 ->
  parse_ub data pos 16 = OK (256 * byte_val b0 + byte_val b1, pos + 16) /\
  parse_ui16 data pos = OK (byte_val b0 + 256 * byte_val b1, pos + 16).
Proof.
  intros H0 H8 Hb0 Hb1.
  assert (data !! Z.to_nat ((pos + 8) / 8) = Some b1) as Hb1'.
  { replace (Z.to_nat ((pos + 8) / 8)) with (S (Z.to_nat (pos / 8)))
      by euclid.
    exact Hb1. }
  split.
  - unfold parse_ub. change (Z.to_nat 16) with (8 + 8)%nat.
    rewrite parse_ub_loop_app.
    pose proof (parse_ub_byte _ _ _ H0 H8 Hb0) as E0.
    unfold parse_ub in E0. change (Z.to_nat 8) with 8%nat in E0.
    rewrite E0. cbn [bind]. rewrite parse_ub_loop_from_zero.
    pose proof (parse_ub_byte data (pos + 8) b1) as E1.
    unfold parse_ub in E1. change (Z.to_nat 8) with 8%nat in E1.
    rewrite E1; [ | lia | euclid | exact Hb1' ].
    cbn [bind]. change (2 ^ Z.of_nat 8) with 256. do 2 f_equal; lia.
  - unfold parse_ui16, parse_uint.
    rewrite byte_align_aligned by assumption. cbn [bind].
    change (Z.to_nat 2) with 2%nat. cbn [parse_uint_loop].
    rewrite (get_byte_lookup _ _ _ H0 H8 Hb0). cbn [bind].
    rewrite (get_byte_lookup data (pos + 8) b1); [ | lia | euclid | exact Hb1' ].
    cbn [bind]. change (8 * 0) with 0. change (8 * (0 + 1)) with 8.
    rewrite Z.shiftl_0_r, Z.lor_0_l.
    pose proof (byte_val_range b0).
    rewrite lor_shiftl_add by (change (2 ^ 8) with 256; lia).
    change (2 ^ 8) with 256. do 2 f_equal; lia.
Qed.

Lemma parse_ub_16_vs_parse_ui16_0x1234 :
  parse_ub [x12; x34] 0 16 = OK (256 * byte_val x12 + byte_val x34, 0 + 16) /\
  parse_ui16 [x12; x34] 0 = OK (byte_val x12 + 256 * byte_val x34, 0 + 16).
Proof.
  exact (parse_ub_16_vs_parse_ui16 [x12; x34] 0 x12 x34
           ltac:(lia) eq_refl eq_refl eq_refl).
Defined.

(** ** Fixed-point numbers *)

(** X16: a value returned by [parse_fixed8] is the signed 16-bit integer
    read at the same place divided by 256, a rational of at least -128
    and less than 128; one returned by [parse_fixed16] is the signed
    32-bit integer divided by 65536, of at least -32768 and less than
    32768.  Both leave the position where the integer reader does. *)
Theorem parse_fixed_range (data : list byte) (pos : Z) (q : Q) (p : Z) :
  (parse_fixed8 data pos = OK (q, p) ->
   exists v, parse_si16 data pos = OK (v, p) /\ q = Qmake v 256 /\
             (inject_Z (-128) <= q)%Q /\ (q < inject_Z 128)%Q) /\
  (parse_fixed16 data pos = OK (q, p) ->
   exists v, parse_si32 data pos = OK (v, p) /\ q = Qmake v 65536 /\
             (inject_Z (-32768) <= q)%Q /\ (q < inject_Z 32768)%Q).
Proof.
  split; intros H.
  - unfold parse_fixed8 in H.
    destruct (parse_si16 data pos) as [[v p1]|e] eqn:Hsi; [|discriminate].
    cbn [bind] in H. injection H as <- <-.
    exists v. split; [reflexivity|]. split; [reflexivity|].
    rewrite (proj1 (proj2 (parse_si_cases data pos))) in Hsi.
    unfold parse_ui16 in Hsi.
    destruct (parse_uint data pos 2) as [[u p2]|e] eqn:Hu; [|discriminate].
    apply parse_uint_OK_bound in Hu; [|lia].
    cbn [bind] in Hsi. injection Hsi as <- <-.
    change (2 ^ (8 * 2)) with 65536 in Hu.
    unfold Qle, Qlt. cbn [Qnum Qden inject_Z].
    destruct (Z.ltb_spec u (2 ^ 15)) as [Hlt|Hge];
      change (2 ^ 15) with 32768 in *; change (2 ^ 16) with 65536; lia.
  - unfold parse_fixed16 in H.
    destruct (parse_si32 data pos) as [[v p1]|e] eqn:Hsi; [|discriminate].
    cbn [bind] in H. injection H as <- <-.
    exists v. split; [reflexivity|]. split; [reflexivity|].
    rewrite (proj2 (proj2 (parse_si_cases data pos))) in Hsi.
    unfold parse_ui32 in Hsi.
    destruct (parse_uint data pos 4) as [[u p2]|e] eqn:Hu; [|discriminate].
    apply parse_uint_OK_bound in Hu; [|lia].
    cbn [bind] in Hsi. injection Hsi as <- <-.
    change (2 ^ (8 * 4)) with 4294967296 in Hu.
    unfold Qle, Qlt. cbn [Qnum Qden inject_Z].
    destruct (Z.ltb_spec u (2 ^ 31)) as [Hlt|Hge];
      change (2 ^ 31) with 2147483648 in *;
      change (2 ^ 32) with 4294967296; lia.
Qed.

Lemma parse_fixed_range_twelve :
  exists v, parse_si16 [x00; x0c] 0 = OK (v, 16) /\ Qmake 3072 256 = Qmake v 256 /\
            (inject_Z (-128) <= Qmake 3072 256)%Q /\
            (Qmake 3072 256 < inject_Z 128)%Q.
Proof.
  exact (proj1 (parse_fixed_range [x00; x0c] 0 (Qmake 3072 256) 16) eq_refl).
Defined.

(** ** [Rect.parse] *)

Lemma Rect_fields_aux (data : list byte) (pos : Z) :
  (forall r p,
     Rect.parse data pos = OK (r, p) ->
     exists w, parse_ub data pos 5 = OK (w, pos + 5) /\ 1 <= w <= 31 /\
               p = pos + 5 + 4 * w /\
               - 2 ^ (w - 1) <= Rect.x_min r < 2 ^ (w - 1) /\
               - 2 ^ (w - 1) <= Rect.x_max r < 2 ^ (w - 1) /\
               - 2 ^ (w - 1) <= Rect.y_min r < 2 ^ (w - 1) /\
               - 2 ^ (w - 1) <= Rect.y_max r < 2 ^ (w - 1)) /\
  (parse_ub data pos 5 = OK (0, pos + 5) ->
   Rect.parse data pos = Raise (ValueError NegativeShiftCount)).
Proof.
  split.
  - intros r p H. unfold Rect.parse in H.
    destruct (parse_ub data pos 5) as [[w p0]|e] eqn:Hw; [|discriminate].
    cbn [bind] in H.
    destruct (parse_sb data p0 w) as [[x1 p1]|e] eqn:H1; [|discriminate].
    cbn [bind] in H.
    destruct (parse_sb data p1 w) as [[x2 p2]|e] eqn:H2; [|discriminate].
    cbn [bind] in H.
    destruct (parse_sb data p2 w) as [[x3 p3]|e] eqn:H3; [|discriminate].
    cbn [bind] in H.
    destruct (parse_sb data p3 w) as [[x4 p4]|e] eqn:H4; [|discriminate].
    cbn [bind] in H. injection H as <- <-.
    unfold parse_ub in Hw. apply parse_ub_loop_OK in Hw as (-> & Hrange).
    change (Z.of_nat (Z.to_nat 5)) with 5 in *.
    change (2 ^ 5) with 32 in Hrange.
    apply parse_sb_OK in H1 as (Hw1 & -> & R1 & _).
    apply parse_sb_OK in H2 as (_ & -> & R2 & _).
    apply parse_sb_OK in H3 as (_ & -> & R3 & _).
    apply parse_sb_OK in H4 as (_ & -> & R4 & _).
    exists w. cbn [Rect.x_min Rect.x_max Rect.y_min Rect.y_max].
    repeat split; lia.
  - intros Hw. unfold Rect.parse. rewrite Hw. cbn [bind].
    rewrite parse_sb_nonpositive_width by lia. reflexivity.
Qed.

(** X17: a rectangle that [Rect.parse] returns was read with a width [w]
    between 1 and 31 taken from its first five bits; it consumed
    [5 + 4 * w] bits with no alignment, and each of its four fields lies
    in [-2^(w-1) .. 2^(w-1) - 1].  When the five bits hold the width 0,
    [Rect.parse] raises [ValueError] instead of returning an empty
    rectangle. *)
Theorem Rect_parse_fields (data : list byte) (pos : Z) :
  (forall r p,
     Rect.parse data pos = OK (r, p) ->
     exists w, parse_ub data pos 5 = OK (w, pos + 5) /\ 1 <= w <= 31 /\
               p = pos + 5 + 4 * w /\
               - 2 ^ (w - 1) <= Rect.x_min r < 2 ^ (w - 1) /\
               - 2 ^ (w - 1) <= Rect.x_max r < 2 ^ (w - 1) /\
               - 2 ^ (w - 1) <= Rect.y_min r < 2 ^ (w - 1) /\
               - 2 ^ (w - 1) <= Rect.y_max r < 2 ^ (w - 1)) /\
  (parse_ub data pos 5 = OK (0, pos + 5) ->
   Rect.parse data pos = Raise (ValueError NegativeShiftCount)).
Proof. exact (Rect_fields_aux data pos). Qed.

Lemma Rect_parse_fields_width_zero :
  Rect.parse [x07; xff] 0 = Raise (ValueError NegativeShiftCount).
Proof. exact (proj2 (Rect_parse_fields [x07; xff] 0) eq_refl). Defined.

(** ** [Header.parse] *)

Lemma Header_init_OK (signature : string) (compression : option string) :
  Header.__init__ signature = OK compression ->
  (signature = "FWS"%string /\ compression = None) \/
  (signature = "CWS"%string /\ compression = Some "zlib"%string) \/
  (signature = "ZWS"%string /\ compression = Some "lzma"%string).
Proof.
  unfold Header.__init__.
  destruct (String.eqb_spec (Header.ending signature) "WS") as [Hend|_];
    [|discriminate].
  destruct signature as [|c rest]; [discriminate|].
  cbn [Header.ending] in Hend. subst rest. cbn [negb Header.first bind].
  destruct (Ascii.eqb_spec c "F") as [->|_]; [intros [= <-]; auto|].
  destruct (Ascii.eqb_spec c "C") as [->|_]; [intros [= <-]; auto|].
  destruct (Ascii.eqb_spec c "Z") as [->|_]; [intros [= <-]; auto|].
  discriminate.
Qed.

Lemma Header_parse_bounds data pos h p :
  Header.parse data pos = OK (h, p) -> pos + 64 <= p /\ p / 8 <= len data.
Proof.
  intros H. unfold Header.parse, parse_ui8, parse_ui32, parse_ui16 in H.
  destruct (parse_uint data pos 1) as [[s1 p1]|e] eqn:H1; [|discriminate].
  cbn [bind] in H.
  destruct (parse_uint data p1 1) as [[s2 p2]|e] eqn:H2; [|discriminate].
  cbn [bind] in H.
  destruct (parse_uint data p2 1) as [[s3 p3]|e] eqn:H3; [|discriminate].
  cbn [bind] in H.
  destruct (Header.__init__ _) as [c|e]; [|discriminate].
  cbn [bind] in H.
  destruct (parse_uint data p3 1) as [[ver p4]|e] eqn:H4; [|discriminate].
  cbn [bind] in H.
  destruct (parse_uint data p4 4) as [[fl p5]|e] eqn:H5; [|discriminate].
  cbn [bind] in H.
  apply parse_uint_OK in H1 as (P0 & L1 & _).
  apply parse_uint_OK in H2 as (_ & L2 & _).
  apply parse_uint_OK in H3 as (_ & L3 & _).
  apply parse_uint_OK in H4 as (_ & L4 & _).
  apply parse_uint_OK in H5 as (_ & L5 & _ & _ & _ & F5).
  change (Z.of_nat (Z.to_nat 1)) with 1 in *.
  change (Z.of_nat (Z.to_nat 4)) with 4 in *.
  destruct c as [kind|].
  - injection H as <- <-. lia.
  - destruct (Rect.parse data p5) as [[fs p6]|e] eqn:H6; [|discriminate].
    cbn [bind] in H.
    destruct (parse_fixed8 data p6) as [[fr p7]|e] eqn:H7; [|discriminate].
    cbn [bind] in H.
    destruct (parse_uint data p7 2) as [[fc p8]|e] eqn:H8; [|discriminate].
    cbn [bind] in H. injection H as <- <-.
    apply parse_uint_OK in H8 as (P7 & L8 & _ & _ & _ & F8).
    destruct (proj1 (Rect_fields_aux data p5) _ _ H6) as (w & _ & Hw & -> & _).
    unfold parse_fixed8, parse_si16, parse_ui16 in H7.
    destruct (parse_uint data _ 2) as [[u16 p9]|e] eqn:H9; [|discriminate].
    cbn [bind] in H7.
    destruct (as_signed u16 16) as [v16|e]; [|discriminate].
    cbn [bind] in H7. injection H7 as <- <-.
    apply parse_uint_OK in H9 as (_ & L9 & _). lia.
Qed.

(** X18: every header that [Header.parse] returns has the signature
    ["FWS"], ["CWS"] or ["ZWS"] with the compression [None], ['zlib'] or
    ['lzma'] that goes with it; the frame size, rate and count are there
    exactly when the compression is [None], and the count is then below
    65536; the version is below 256 and the file length below [2^32].
    The position returned is byte-aligned, inside the buffer, and at
    least 64 bits past the start, exactly 64 bits past the (aligned)
    start for a compressed header. *)
Theorem Header_parse_invariant (data : list byte) (pos : Z)
    (h : Header.t) (p : Z) :
  Header.parse data pos = OK (h, p) ->
  ((Header.signature h = "FWS"%string /\ Header.compression h = None /\
    is_Some (Header.frame_size h) /\ is_Some (Header.frame_rate h) /\
    (exists n, Header.frame_count h = Some n /\ 0 <= n < 65536)) \/
   ((Header.signature h = "CWS"%string /\
     Header.compression h = Some "zlib"%string \/
     Header.signature h = "ZWS"%string /\
     Header.compression h = Some "lzma"%string) /\
    Header.frame_size h = None /\ Header.frame_rate h = None /\
    Header.frame_count h = None /\ p = (pos + 7) / 8 * 8 + 64)) /\
  0 <= Header.version h < 256 /\ 0 <= Header.file_length h < 2 ^ 32 /\
  0 <= pos /\ pos + 64 <= p /\ p mod 8 = 0 /\ p / 8 <= len data.
Proof.
  intros H. unfold Header.parse, parse_ui8, parse_ui32, parse_ui16 in H.
  destruct (parse_uint data pos 1) as [[s1 p1]|e] eqn:H1; [|discriminate].
  cbn [bind] in H.
  destruct (parse_uint data p1 1) as [[s2 p2]|e] eqn:H2; [|discriminate].
  cbn [bind] in H.
  destruct (parse_uint data p2 1) as [[s3 p3]|e] eqn:H3; [|discriminate].
  cbn [bind] in H.
  destruct (Header.__init__ _) as [c|e] eqn:Hinit; [|discriminate].
  cbn [bind] in H.
  destruct (parse_uint data p3 1) as [[ver p4]|e] eqn:H4; [|discriminate].
  cbn [bind] in H.
  destruct (parse_uint data p4 4) as [[fl p5]|e] eqn:H5; [|discriminate].
  cbn [bind] in H.
  pose proof (parse_uint_OK_bound data p3 1 ver p4 ltac:(lia) H4) as Bver.
  pose proof (parse_uint_OK_bound data p4 4 fl p5 ltac:(lia) H5) as Bfl.
  change (2 ^ (8 * 1)) with 256 in Bver. change (8 * 4) with 32 in Bfl.
  apply parse_uint_OK in H1 as (P0 & L1 & U1 & A1 & _).
  apply parse_uint_OK in H2 as (_ & L2 & U2 & A2 & _).
  apply parse_uint_OK in H3 as (_ & L3 & U3 & A3 & _).
  apply parse_uint_OK in H4 as (_ & L4 & U4 & A4 & _).
  apply parse_uint_OK in H5 as (_ & L5 & U5 & A5 & _ & F5).
  change (Z.of_nat (Z.to_nat 1)) with 1 in *.
  change (Z.of_nat (Z.to_nat 4)) with 4 in *.
  apply Header_init_OK in Hinit as [[Hsig ->]|[[Hsig ->]|[Hsig ->]]].
  - destruct (Rect.parse data p5) as [[fs p6]|e] eqn:H6; [|discriminate].
    cbn [bind] in H.
    destruct (parse_fixed8 data p6) as [[fr p7]|e] eqn:H7; [|discriminate].
    cbn [bind] in H.
    destruct (parse_uint data p7 2) as [[fc p8]|e] eqn:H8; [|discriminate].
    cbn [bind] in H. injection H as <- <-.
    cbn [Header.signature Header.compression Header.version
         Header.file_length Header.frame_size Header.frame_rate
         Header.frame_count].
    pose proof (parse_uint_OK_bound data p7 2 fc p8 ltac:(lia) H8) as Bfc.
    change (2 ^ (8 * 2)) with 65536 in Bfc.
    apply parse_uint_OK in H8 as (P7 & L8 & _ & A8 & _ & F8).
    change (Z.of_nat (Z.to_nat 2)) with 2 in L8.
    destruct (proj1 (Rect_fields_aux data p5) _ _ H6) as (w & _ & Hw & -> & _).
    unfold parse_fixed8, parse_si16, parse_ui16 in H7.
    destruct (parse_uint data _ 2) as [[u16 p9]|e] eqn:H9; [|discriminate].
    cbn [bind] in H7.
    destruct (as_signed u16 16) as [v16|e]; [|discriminate].
    cbn [bind] in H7. injection H7 as <- <-.
    apply parse_uint_OK in H9 as (_ & L9 & _).
    change (Z.of_nat (Z.to_nat 2)) with 2 in L9.
    split; [left; repeat split; eauto|].
    repeat split; lia.
  - injection H as <- <-.
    cbn [Header.signature Header.compression Header.version
         Header.file_length Header.frame_size Header.frame_rate
         Header.frame_count].
    split; [right; repeat split; auto; euclid|].
    repeat split; lia.
  - injection H as <- <-.
    cbn [Header.signature Header.compression Header.version
         Header.file_length Header.frame_size Header.frame_rate
         Header.frame_count].
    split; [right; repeat split; auto; euclid|].
    repeat split; lia.
Qed.

Lemma Header_parse_invariant_zlib :
  let h :=
    {| Header.signature := "CWS"; Header.compression := Some "zlib"%string;
       Header.version := 10; Header.file_length := 16;
       Header.frame_size := None; Header.frame_rate := None;
       Header.frame_count := None |} in
  ((Header.signature h = "FWS"%string /\ Header.compression h = None /\
    is_Some (Header.frame_size h) /\ is_Some (Header.frame_rate h) /\
    (exists n, Header.frame_count h = Some n /\ 0 <= n < 65536)) \/
   ((Header.signature h = "CWS"%string /\
     Header.compression h = Some "zlib"%string \/
     Header.signature h = "ZWS"%string /\
     Header.compression h = Some "lzma"%string) /\
    Header.frame_size h = None /\ Header.frame_rate h = None /\
    Header.frame_count h = None /\ 64 = (0 + 7) / 8 * 8 + 64)) /\
  0 <= Header.version h < 256 /\ 0 <= Header.file_length h < 2 ^ 32 /\
  0 <= 0 /\ 0 + 64 <= 64 /\ 64 mod 8 = 0 /\
  64 / 8 <= len ["C"%byte; "W"%byte; "S"%byte; x0a; x10; x00; x00; x00].
Proof.
  exact (Header_parse_invariant
           ["C"%byte; "W"%byte; "S"%byte; x0a; x10; x00; x00; x00] 0
           _ 64 eq_refl).
Defined.

(** X19: [Header.parse] checks the end of the signature before its first
    character and before it reads anything else: whenever the second and
    third bytes are not ['W','S'] it raises the [ValueError] that names
    the two characters found, whatever the first byte and the rest of the
    buffer are; and on a buffer of fewer than three bytes it raises
    [IndexError]. *)
Theorem Header_parse_bad_signature (data : list byte) :
  (forall b1 b2 b3 rest,
     data = b1 :: b2 :: b3 :: rest ->
     (b2, b3) <> ("W"%byte, "S"%byte) ->
     Header.parse data 0 =
       Raise (ValueError (BadSignatureEnding
                (String (chr (byte_val b2))
                   (String (chr (byte_val b3)) EmptyString))))) /\
  ((List.length data < 3)%nat -> Header.parse data 0 = Raise IndexError).
Proof.
  split.
  - intros b1 b2 b3 rest -> Hne. unfold Header.parse.
    read_ui8 b1. read_ui8 b2. read_ui8 b3.
    rewrite Header_init_bad_ending; [reflexivity|].
    intros [= E2 E3]. apply Hne.
    f_equal; apply chr_byte_val_inj; assumption.
  - intros Hshort.
    destruct data as [|a [|b [|c rest]]]; cbn [List.length] in Hshort;
      [reflexivity | reflexivity | reflexivity | lia].
Qed.

Lemma Header_parse_bad_signature_XAB :
  Header.parse ["X"%byte; "A"%byte; "B"%byte; x01] 0 =
    Raise (ValueError (BadSignatureEnding "AB")).
Proof.
  exact (proj1 (Header_parse_bad_signature ["X"%byte; "A"%byte; "B"%byte; x01])
           "X"%byte "A"%byte "B"%byte [x01] eq_refl ltac:(discriminate)).
Defined.

(** ** The tag registry and the dispatch *)

Lemma registry_fold_lookup (l : list (Z * Tag.cls)) :
  forall (m : gmap Z Tag.cls) (k : Z) (c : Tag.cls),
    fold_left Tag.__init_subclass__ l m !! k = Some c ->
    In (k, c) l \/ m !! k = Some c.
Proof.
  induction l as [|[num cls] l IH]; intros m k c H; [auto|].
  cbn [fold_left] in H. apply IH in H as [H|H]; [left; right; exact H|].
  unfold Tag.__init_subclass__ in H. cbn [fst snd] in H.
  apply lookup_insert_Some in H as [[-> ->]|[_ H]]; [left; left|right]; auto.
Qed.

Lemma registry_lookup_In (k : Z) (c : Tag.cls) :
  Tag._types_by_num !! k = Some c -> In (k, c) Tag.subclasses.
Proof.
  intros H. apply registry_fold_lookup in H as [H|H]; [exact H|].
  rewrite lookup_empty in H. discriminate.
Qed.

Lemma class_of_DefineSound (ty : Z) :
  Tag.class_of ty = Tag.DefineSound <-> ty = 14.
Proof.
  split; [|intros ->; reflexivity].
  unfold Tag.class_of.
  destruct (Tag._types_by_num !! ty) as [c|] eqn:H; [|discriminate].
  intros ->. apply registry_lookup_In in H.
  unfold Tag.subclasses in H. cbn [In] in H.
  repeat (destruct H as [H|H]; [congruence|]). contradiction.
Qed.

Lemma registry_keys (k : Z) (c : Tag.cls) :
  Tag._types_by_num !! k = Some c -> 0 <= k <= 93 /\ c <> Tag.Base.
Proof.
  intros H. apply registry_lookup_In in H.
  unfold Tag.subclasses in H. cbn [In] in H.
  repeat (destruct H as [H|H]; [injection H as <- <-; split; [lia|discriminate]|]).
  contradiction.
Qed.

(** X20: only type 14 has a body parser of its own.  For every other
    type, registered or not, once the framing is read [Tag.parse] cannot
    fail: it returns a tag of the class registered for the type ([Tag]
    itself if there is none) whose [data] is the pair that [parse_bytes]
    returns, the bytes after the framing (at most the declared length)
    and the end position, which is also the position [Tag.parse]
    returns.  The class of a returned tag is [DefineSound] exactly when
    its type is 14, and [Tag] itself exactly when its type has no entry
    in the registry. *)
Theorem Tag_parse_other_types (data : list byte) (pos ty L pf : Z) :
  Tag.framing data pos = OK (ty, L, pf) ->
  (ty <> 14 ->
   Tag.parse data pos =
     OK ({| Tag.class := Tag.class_of ty; Tag.type_num := ty;
            Tag.length := L;
            Tag.contents :=
              Tag.Generic (take (Z.to_nat L) (drop (Z.to_nat (pf / 8)) data),
                           pf + 8 * L) |}, pf + 8 * L)) /\
  (forall tag p,
     Tag.parse data pos = OK (tag, p) ->
     Tag.class tag = Tag.class_of ty /\
     (Tag.class tag = Tag.DefineSound <-> ty = 14) /\
     (Tag.class tag = Tag.Base <-> Tag._types_by_num !! ty = None)).
Proof.
  intros Hf. pose proof (framing_OK _ _ _ _ _ Hf) as (H0 & Hpf & H8 & HL & _).
  split.
  - intros Hne. rewrite parse_via_framing, Hf. cbn [bind].
    rewrite call__parse_inherited
      by (intros Hc; apply class_of_DefineSound in Hc; contradiction).
    rewrite Tag__parse_aligned by exact H8. cbn [bind].
    rewrite getslice_nonneg by euclid. reflexivity.
  - intros tag p. rewrite parse_via_framing, Hf. cbn [bind]. intros H.
    destruct (Tag.call__parse _ _ _ _) as [c|e]; [|discriminate].
    cbn [bind] in H. injection H as <- <-. cbn [Tag.class].
    split; [reflexivity|]. split; [apply class_of_DefineSound|].
    unfold Tag.class_of.
    destruct (Tag._types_by_num !! ty) as [c'|] eqn:Hreg;
      [|split; reflexivity].
    apply registry_keys in Hreg as (_ & Hbase).
    split; [contradiction | discriminate].
Qed.

Lemma Tag_parse_other_types_show_frame :
  Tag.parse [x40; x00] 0 =
    OK ({| Tag.class := Tag.ShowFrame; Tag.type_num := 1; Tag.length := 0;
           Tag.contents := Tag.Generic ([], 16) |}, 16).
Proof.
  exact (proj1 (Tag_parse_other_types [x40; x00] 0 1 0 16 eq_refl)
           ltac:(discriminate)).
Defined.

(** ** The framing of a tag, byte by byte *)

Lemma parse_uint_after (before bytes rest : list byte) (n : Z) :
  n = len bytes ->
  parse_uint (before ++ bytes ++ rest) (8 * len before) n =
    OK (le_value bytes, 8 * (len before + n)).
Proof.
  intros ->. pose proof (len_nonneg before). pose proof (len_nonneg bytes).
  rewrite parse_uint_bytes;
    [ | lia | lia | unfold len in *; rewrite !length_app; euclid ].
  replace ((8 * len before + 7) / 8) with (len before) by euclid.
  unfold len. rewrite !Nat2Z.id, drop_app_length, take_app_length.
  reflexivity.
Qed.

(** X21: the framing read from the bytes.  With [b0], [b1] the two bytes
    at a byte boundary and [tl = b0 + 256 * b1], the type is [tl / 64]
    and the short length [tl mod 64].  A short length other than 63 is
    the length, and the framing ends after the two bytes; the short
    length 63 makes the next four bytes the length, little-endian, and
    the framing ends after six bytes; if fewer than four bytes follow,
    the framing raises [IndexError]. *)
Theorem Tag_framing_bytes (before rest : list byte) (b0 b1 : byte) :
  let tl := byte_val b0 + 256 * byte_val b1 in
  let data := before ++ [b0; b1] ++ rest in
  let pos := 8 * len before in
  (tl mod 64 <> 63 ->
   Tag.framing data pos = OK (tl / 64, tl mod 64, pos + 16)) /\
  (tl mod 64 = 63 ->
   forall l0 l1 l2 l3 rest',
     rest = l0 :: l1 :: l2 :: l3 :: rest' ->
     Tag.framing data pos =
       OK (tl / 64, le_value [l0; l1; l2; l3], pos + 48)) /\
  (tl mod 64 = 63 -> (List.length rest < 4)%nat ->
   Tag.framing data pos = Raise IndexError).
Proof.
  intros tl data pos.
  assert (parse_ui16 data pos = OK (tl, pos + 16)) as Htl.
  { subst data pos. unfold parse_ui16.
    rewrite (parse_uint_after before [b0; b1] rest 2) by reflexivity.
    cbn [le_value]. subst tl. do 2 f_equal; lia. }
  assert (Z.shiftr tl 6 = tl / 64) as Hty
    by (rewrite Z.shiftr_div_pow2 by lia; reflexivity).
  assert (Z.land tl 63 = tl mod 64) as Hlen
    by (change 63 with (Z.ones 6); rewrite Z.land_ones by lia; reflexivity).
  unfold Tag.framing. rewrite Htl. cbn [bind]. rewrite Hty, Hlen.
  split; [|split].
  - intros Hshort.
    destruct (Z.eqb_spec (tl mod 64) 63); [contradiction | reflexivity].
  - intros Hlong l0 l1 l2 l3 rest' ->. rewrite Hlong. cbn [Z.eqb Pos.eqb].
    unfold parse_ui32. subst data pos.
    change (before ++ [b0; b1] ++ l0 :: l1 :: l2 :: l3 :: rest')
      with (before ++ [b0; b1] ++ [l0; l1; l2; l3] ++ rest').
    rewrite (app_assoc before [b0; b1]).
    replace (8 * len before + 16) with (8 * len (before ++ [b0; b1]))
      by (unfold len; rewrite length_app; cbn [List.length]; lia).
    rewrite (parse_uint_after (before ++ [b0; b1]) [l0; l1; l2; l3] rest' 4)
      by reflexivity.
    cbn [bind]. do 2 f_equal.
    unfold len. rewrite length_app. cbn [List.length]. lia.
  - intros Hlong Hshort. rewrite Hlong. cbn [Z.eqb Pos.eqb].
    pose proof (len_nonneg before).
    unfold parse_ui32.
    destruct (parse_uint_fail_cases data (pos + 16) 4) as (_ & Hfail & _).
    rewrite Hfail; [reflexivity | lia | lia |].
    subst data pos. unfold len in *. rewrite !length_app.
    cbn [List.length]. euclid.
Qed.

Lemma Tag_framing_bytes_long_form :
  Tag.framing ([xaa] ++ [xff; x00] ++ [x05; x00; x00; x00; xbb]) (8 * 1) =
    OK (3, 5, 8 * 1 + 48).
Proof.
  exact (proj1 (proj2 (Tag_framing_bytes [xaa] [x05; x00; x00; x00; xbb]
                         xff x00))
           eq_refl x05 x00 x00 x00 [xbb] eq_refl).
Defined.

(** ** The body of a DefineSound tag *)

(** X22: a DefineSound tag whose declared length [L] is at least the
    seven bytes of its fixed fields, with those bytes in the buffer and a
    format nibble that has an entry in the table: [Tag.parse] returns the
    tag; its id is the little-endian number of the first two bytes after
    the framing, its sample count that of bytes 3 to 6, and its [data]
    the bytes from byte 7 on, at most [L - 7] of them, exactly [L - 7]
    when the buffer holds the whole declared body. *)
Theorem Tag_parse_DefineSound_body (data : list byte) (pos L pf : Z)
    (b : byte) (fmt : string) :
  Tag.framing data pos = OK (14, L, pf) ->
  7 <= L ->
  pf / 8 + 7 <= len data ->
  data !! Z.to_nat (pf / 8 + 2) = Some b ->
  DefineSound._formats !! Z.shiftr (byte_val b) 4 = Some fmt ->
  exists attrs,
    Tag.parse data pos =
      OK ({| Tag.class := Tag.DefineSound; Tag.type_num := 14;
             Tag.length := L; Tag.contents := Tag.Sound attrs |},
          pf + 8 * L) /\
    DefineSound.id attrs =
      le_value (take 2 (drop (Z.to_nat (pf / 8)) data)) /\
    DefineSound.format attrs = fmt /\
    DefineSound.sample_count attrs =
      le_value (take 4 (drop (Z.to_nat (pf / 8 + 3)) data)) /\
    DefineSound.data attrs =
      take (Z.to_nat (L - 7)) (drop (Z.to_nat (pf / 8 + 7)) data) /\
    (pf / 8 + L <= len data -> len (DefineSound.data attrs) = L - 7).
Proof.
  intros Hf HL Hfit Hb Hfmt.
  pose proof (framing_OK _ _ _ _ _ Hf) as (H0 & Hpf & H8 & _).
  assert (0 <= pf) as Hpf0 by lia.
  assert (parse_ui16 data pf =
            OK (le_value (take 2 (drop (Z.to_nat (pf / 8)) data)), pf + 16))
    as Hid.
  { unfold parse_ui16. rewrite parse_uint_bytes by euclid.
    replace ((pf + 7) / 8) with (pf / 8) by euclid.
    do 2 f_equal. euclid. }
  assert (parse_ui32 data (pf + 16 + 8) =
            OK (le_value (take 4 (drop (Z.to_nat (pf / 8 + 3)) data)),
                pf + 56))
    as Hsc.
  { unfold parse_ui32. rewrite parse_uint_bytes by euclid.
    replace ((pf + 16 + 8 + 7) / 8) with (pf / 8 + 3) by euclid.
    do 2 f_equal. euclid. }
  assert (data !! Z.to_nat ((pf + 16) / 8) = Some b) as Hb'.
  { replace ((pf + 16) / 8) with (pf / 8 + 2) by euclid. exact Hb. }
  destruct (sampling_rate_mapped b) as [rate Hrate].
  destruct (bits_per_sample_mapped b) as [bits Hbits].
  destruct (channels_mapped b) as [ch Hch].
  eexists. split.
  - rewrite parse_via_framing, Hf. cbn [bind].
    change (Tag.class_of 14) with Tag.DefineSound.
    cbn [Tag.call__parse].
    rewrite (DefineSound__parse_flags _ _ _ _ _ _ Hid Hb').
    unfold dict_getitem. rewrite Hfmt, Hrate, Hbits, Hch, Hsc. cbn [bind].
    rewrite parse_bytes_aligned by euclid. cbn [bind].
    replace ((pf + 56 - pf) / 8) with 7 by euclid.
    rewrite getslice_nonneg by euclid. reflexivity.
  - cbn [DefineSound.id DefineSound.format DefineSound.sample_count
         DefineSound.data].
    replace ((pf + 56) / 8) with (pf / 8 + 7) by euclid.
    repeat split.
    intros Hall. unfold len in *. rewrite length_take_drop. euclid.
Qed.

Lemma Tag_parse_DefineSound_body_nine_bytes :
  exists attrs,
    Tag.parse [x89; x03; x05; x00; x2f; x01; x00; x00; x00; xaa; xbb] 0 =
      OK ({| Tag.class := Tag.DefineSound; Tag.type_num := 14;
             Tag.length := 9; Tag.contents := Tag.Sound attrs |},
          16 + 8 * 9) /\
    DefineSound.id attrs = 5 /\
    DefineSound.format attrs = "MP3"%string /\
    DefineSound.sample_count attrs = 1 /\
    DefineSound.data attrs = [xaa; xbb] /\
    (16 / 8 + 9 <=
       len [x89; x03; x05; x00; x2f; x01; x00; x00; x00; xaa; xbb] ->
     len (DefineSound.data attrs) = 9 - 7).
Proof.
  exact (Tag_parse_DefineSound_body
           [x89; x03; x05; x00; x2f; x01; x00; x00; x00; xaa; xbb]
           0 9 16 x2f "MP3" eq_refl ltac:(lia) ltac:(vm_compute; discriminate)
           eq_refl eq_refl).
Defined.

(** X23: unlike the generic body, the body of a DefineSound tag can fail
    after the framing is read: when fewer than seven bytes follow the
    framing, [Tag.parse] raises, either [IndexError] for the missing
    bytes or, if the flags byte is there and its format nibble has no
    entry, [KeyError]; it never returns a tag with fixed fields
    missing. *)
Theorem Tag_parse_DefineSound_truncated (data : list byte) (pos L pf : Z) :
  Tag.framing data pos = OK (14, L, pf) ->
  len data < pf / 8 + 7 ->
  exists e, Tag.parse data pos = Raise e /\
            (e = IndexError \/ exists code, e = KeyError code).
Proof.
  intros Hf Hshort.
  pose proof (framing_OK _ _ _ _ _ Hf) as (H0 & Hpf & H8 & _ & _ & Hin).
  assert (0 <= pf) as Hpf0 by lia.
  rewrite parse_via_framing, Hf. cbn [bind].
  change (Tag.class_of 14) with Tag.DefineSound. cbn [Tag.call__parse].
  destruct (Z.le_gt_cases (pf / 8 + 2) (len data)) as [Hid|Hnoid].
  2:{ exists IndexError. split; [|auto].
      unfold DefineSound._parse, parse_ui16.
      rewrite (proj1 (proj2 (parse_uint_fail_cases data pf 2))) by euclid.
      reflexivity. }
  assert (parse_ui16 data pf =
            OK (le_value (take 2 (drop (Z.to_nat (pf / 8)) data)), pf + 16))
    as Hid'.
  { unfold parse_ui16. rewrite parse_uint_bytes by euclid.
    replace ((pf + 7) / 8) with (pf / 8) by euclid.
    do 2 f_equal. euclid. }
  destruct (Z.le_gt_cases (len data) (pf / 8 + 2)) as [Hnoflags|Hflags].
  { exists IndexError. split; [|auto].
    unfold DefineSound._parse. rewrite Hid'. cbn [bind].
    unfold parse_ub. change (Z.to_nat 4) with 4%nat.
    rewrite parse_ub_loop_beyond by euclid. reflexivity. }
  destruct (getitem_in_range data ((pf + 16) / 8)) as (b & Hb & _); [euclid|].
  rewrite (DefineSound__parse_flags _ _ _ _ _ _ Hid' Hb).
  unfold dict_getitem at 1.
  destruct (DefineSound._formats !! _) as [fmt|] eqn:Hfmt.
  2:{ eexists. split; [reflexivity|]. right. eauto. }
  destruct (sampling_rate_mapped b) as [rate Hrate].
  destruct (bits_per_sample_mapped b) as [bits Hbits].
  destruct (channels_mapped b) as [ch Hch].
  unfold dict_getitem. rewrite Hrate, Hbits, Hch. cbn [bind].
  unfold parse_ui32.
  rewrite (proj1 (proj2 (parse_uint_fail_cases data (pf + 16 + 8) 4)))
    by euclid.
  exists IndexError. split; [reflexivity | auto].
Qed.

Lemma Tag_parse_DefineSound_truncated_after_flags :
  exists e, Tag.parse [x89; x03; x05; x00; x2f; x01; x00] 0 = Raise e /\
            (e = IndexError \/ exists code, e = KeyError code).
Proof.
  exact (Tag_parse_DefineSound_truncated
           [x89; x03; x05; x00; x2f; x01; x00] 0 9 16 eq_refl
           ltac:(vm_compute; reflexivity)).
Defined.

(** ** The container *)

Lemma framing_bounds data pos ty L pf :
  Tag.framing data pos = OK (ty, L, pf) -> 0 <= ty < 1024 /\ 0 <= L < 2 ^ 32.
Proof.
  unfold Tag.framing, parse_ui16, parse_ui32.
  destruct (parse_uint data pos 2) as [[tl p]|e] eqn:Htl; [|discriminate].
  cbn [bind]. intros H.
  apply parse_uint_OK_bound in Htl; [|lia].
  change (2 ^ (8 * 2)) with 65536 in Htl.
  assert (0 <= Z.shiftr tl 6 < 1024) as Hty
    by (rewrite Z.shiftr_div_pow2 by lia; change (2 ^ 6) with 64; euclid).
  assert (0 <= Z.land tl 63 < 64) as Hshort.
  { change 63 with (Z.ones 6). rewrite Z.land_ones by lia.
    change (2 ^ 6) with 64. euclid. }
  destruct (Z.land tl 63 =? 63).
  - destruct (parse_uint data p 4) as [[l p']|e] eqn:Hl; [|discriminate].
    injection H as <- <- <-.
    apply parse_uint_OK_bound in Hl; [|lia]. change (8 * 4) with 32 in Hl.
    auto.
  - injection H as <- <- <-. change (2 ^ 32) with 4294967296. lia.
Qed.

Lemma Tag_parse_in_range data pos tag p :
  Tag.parse data pos = OK (tag, p) -> tag_in_range tag.
Proof.
  rewrite parse_via_framing. intros H.
  destruct (Tag.framing data pos) as [[[ty L] pf]|e] eqn:Hf; [|discriminate].
  apply framing_bounds in Hf as (Hty & HL). cbn [bind] in H.
  destruct (Tag.call__parse _ _ _ _) as [c|e]; [|discriminate].
  cbn [bind] in H. injection H as <- <-.
  unfold tag_in_range. cbn [Tag.type_num Tag.length Tag.class]. auto.
Qed.

Lemma tags_loop_OK data :
  forall (fuel : nat) (pos : Z) (acc ts : list Tag.t),
    SWFData.tags_loop fuel data pos acc = Some (OK ts) ->
    exists new,
      ts = acc ++ new /\ Forall tag_in_range new /\
      (0 <= pos ->
       2 * Z.of_nat (List.length new) <= Z.max 0 (len data - pos / 8 + 1)).
Proof.
  induction fuel as [|fuel IH]; intros pos acc ts H; [discriminate|].
  cbn [SWFData.tags_loop] in H.
  destruct (Z.ltb_spec (pos / 8) (len data)) as [Hlt|Hge].
  - destruct (Tag.parse data pos) as [[tag p]|e] eqn:Hparse; [|discriminate].
    apply IH in H as (new & -> & Hall & Hcount).
    pose proof (Tag_parse_in_range _ _ _ _ Hparse) as Htag.
    apply Tag_parse_advances in Hparse as (H0 & Hadv).
    exists (tag :: new). rewrite <- app_assoc. split; [reflexivity|].
    split; [constructor; assumption|].
    intros _. cbn [List.length]. specialize (Hcount ltac:(lia)). euclid.
  - injection H as <-. exists []. rewrite app_nil_r.
    split; [reflexivity|]. split; [constructor|]. cbn [List.length]. lia.
Qed.

(** X24: what a container returned by [SWFData.__init__] holds.  Its
    header is the one [Header.parse] returns at position 0.  It has a tag
    list exactly when the header declares no compression; every tag of
    the list has a type below 1024, a declared length below [2^32] and
    the class the registry gives for its type, and since each tag takes
    at least two bytes the list has fewer than [len(data) / 2] tags. *)
Theorem SWFData_init_invariant (fuel : nat) (data : list byte)
    (swf : SWFData.t) :
  SWFData.__init__ fuel data = Some (OK swf) ->
  (exists p, Header.parse data 0 = OK (SWFData.header swf, p)) /\
  match SWFData.tags swf with
  | Some tags =>
      Header.compression (SWFData.header swf) = None /\
      Forall tag_in_range tags /\
      2 * Z.of_nat (List.length tags) < len data
  | None => Header.compression (SWFData.header swf) <> None
  end.
Proof.
  unfold SWFData.__init__. intros H.
  destruct (Header.parse data 0) as [[h p]|e] eqn:Hh; [|discriminate].
  destruct (Header.compression h) as [kind|] eqn:Hc.
  - injection H as <-. cbn [SWFData.header SWFData.tags].
    split; [eauto|]. rewrite Hc. discriminate.
  - destruct (SWFData.tags_loop fuel data p []) as [[ts|e]|] eqn:Hloop;
      try discriminate.
    injection H as <-. cbn [SWFData.header SWFData.tags].
    split; [eauto|]. split; [exact Hc|].
    apply tags_loop_OK in Hloop as (new & -> & Hall & Hcount).
    cbn [app]. split; [exact Hall|].
    apply Header_parse_bounds in Hh as (Hp & Hin).
    specialize (Hcount ltac:(lia)). euclid.
Qed.

Lemma SWFData_init_invariant_end_tag :
  let data :=
    ["F"%byte; "W"%byte; "S"%byte; x06; x10; x00; x00; x00;
     x08; x00; x00; x0c; x01; x00; x00; x00] in
  let swf :=
    {| SWFData.header :=
         {| Header.signature := "FWS"; Header.compression := None;
            Header.version := 6; Header.file_length := 16;
            Header.frame_size :=
              Some {| Rect.x_min := 0; Rect.x_max := 0;
                      Rect.y_min := 0; Rect.y_max := 0 |};
            Header.frame_rate := Some (Qmake 3072 256);
            Header.frame_count := Some 1 |};
       SWFData.tags :=
         Some [ {| Tag.class := Tag.End; Tag.type_num := 0;
                   Tag.length := 0;
                   Tag.contents := Tag.Generic ([], 128) |} ] |} in
  (exists p, Header.parse data 0 = OK (SWFData.header swf, p)) /\
  Header.compression (SWFData.header swf) = None /\
  Forall tag_in_range
    [ {| Tag.class := Tag.End; Tag.type_num := 0; Tag.length := 0;
         Tag.contents := Tag.Generic ([], 128) |} ] /\
  2 * Z.of_nat 1 < len data.
Proof.
  intros data swf. exact (SWFData_init_invariant 17 data swf eq_refl).
Defined.

Lemma bits_fold_width_prefix (b : byte) :
  bits_fold (byte_val b) 5 0 0 = Z.shiftr (byte_val b) 3.
Proof. destruct b; reflexivity. Qed.

(** X25: an uncompressed file whose frame-size rectangle starts with the
    width 0 (the top five bits of the ninth byte are zero) cannot be
    read: [Header.parse] raises [ValueError] when it reaches the
    rectangle, and so does [SWFData.__init__], whatever follows and
    whatever the fuel. *)
Theorem Header_parse_empty_frame_size (ver b4 b5 b6 b7 b8 : byte)
    (rest : list byte) (fuel : nat) :
  Z.shiftr (byte_val b8) 3 = 0 ->
  let data :=
    ["F"%byte; "W"%byte; "S"%byte; ver; b4; b5; b6; b7; b8] ++ rest in
  Header.parse data 0 = Raise (ValueError NegativeShiftCount) /\
  SWFData.__init__ fuel data = Some (Raise (ValueError NegativeShiftCount)).
Proof.
  intros Hw data.
  assert (Header.parse data 0 = Raise (ValueError NegativeShiftCount)) as H.
  { unfold Header.parse. subst data. cbn [app].
    read_ui8 "F"%byte. read_ui8 "W"%byte. read_ui8 "S"%byte.
    change (chr (byte_val "F")) with "F"%char.
    change (chr (byte_val "W")) with "W"%char.
    change (chr (byte_val "S")) with "S"%char.
    rewrite Header_init_FWS. cbn [bind]. read_ui8 ver.
    change (0 + 8 + 8 + 8 + 8) with 32.
    unfold parse_ui32. rewrite parse_uint_in_range;
      [ | lia | reflexivity | lia
        | unfold len; cbn [List.length]; change (32 / 8) with 4; lia ].
    cbn [bind]. change (32 + 8 * 4) with 64.
    unfold Rect.parse.
    replace 64 with (64 + 0) at 1 by lia.
    match goal with
    | |- context [parse_ub ?d (64 + 0) 5] =>
        rewrite (parse_ub_in_byte d 64 b8 ltac:(lia) eq_refl eq_refl 0 5)
          by lia
    end.
    cbn [bind]. change (Z.to_nat 5) with 5%nat.
    rewrite bits_fold_width_prefix, Hw.
    rewrite parse_sb_nonpositive_width by lia. reflexivity. }
  split; [exact H|]. unfold SWFData.__init__. rewrite H. reflexivity.
Qed.

Lemma Header_parse_empty_frame_size_example :
  Header.parse
    (["F"%byte; "W"%byte; "S"%byte; x06; x11; x00; x00; x00; x00]
       ++ [x00; x0c; x01; x00; x00; x00]) 0 =
    Raise (ValueError NegativeShiftCount).
Proof.
  exact (proj1 (Header_parse_empty_frame_size x06 x11 x00 x00 x00 x00
                  [x00; x0c; x01; x00; x00; x00] 0%nat eq_refl)).
Defined.

(** ** Registration *)

Lemma registry_fold_other (l : list (Z * Tag.cls)) :
  forall (m : gmap Z Tag.cls) (num : Z),
    ~ In num (map fst l) ->
    fold_left Tag.__init_subclass__ l m !! num = m !! num.
Proof.
  induction l as [|[n c] l IH]; intros m num Hnot; [reflexivity|].
  cbn [fold_left]. rewrite IH by (intros Hin; apply Hnot; right; exact Hin).
  unfold Tag.__init_subclass__. cbn [fst snd].
  apply lookup_insert_ne. intros ->. apply Hnot. left. reflexivity.
Qed.

(** X26: registration never fails and a later class statement wins: after
    any sequence of [__init_subclass__] calls, the registry maps a number
    to the class of the last call made with that number, earlier calls
    with the same number being overwritten silently.  The registry of the
    module holds exactly its 65 class statements: a number maps to a
    class if and only if the pair is one of them. *)
Theorem registry_last_registration (earlier later : list (Z * Tag.cls))
    (m : gmap Z Tag.cls) (num : Z) (c : Tag.cls) :
  (~ In num (map fst later) ->
   fold_left Tag.__init_subclass__ (earlier ++ (num, c) :: later) m !! num
     = Some c) /\
  (forall k c', Tag._types_by_num !! k = Some c' <-> In (k, c') Tag.subclasses) /\
  List.length Tag.subclasses = 65%nat.
Proof.
  split; [|split].
  - intros Hnot. rewrite fold_left_app. cbn [fold_left].
    rewrite registry_fold_other by exact Hnot.
    unfold Tag.__init_subclass__. cbn [fst snd]. apply lookup_insert_eq.
  - intros k c'. split; [apply registry_lookup_In|].
    unfold Tag.subclasses. cbn [In]. intros H.
    repeat (destruct H as [H|H]; [injection H as <- <-; reflexivity|]).
    contradiction.
  - reflexivity.
Qed.

Lemma registry_last_registration_overwrite :
  fold_left Tag.__init_subclass__
    ([(1, Tag.ShowFrame)] ++ (1, Tag.End) :: [(2, Tag.DefineShape)]) ∅ !! 1
    = Some Tag.End.
Proof.
  exact (proj1 (registry_last_registration
                  [(1, Tag.ShowFrame)] [(2, Tag.DefineShape)] ∅ 1 Tag.End)
           ltac:(cbn; intros [H|H]; [discriminate | exact H])).
Defined.

(** ** A DefineSound body longer than the declared length, field by field *)


